(** * Orbit: connection lifecycle, channel registry and posting pipeline

    A shallow embedding of [src/Orbit.js].  The [Orbit] object is a record
    with the fields its constructor sets.  The JavaScript run time it lives
    in (promises, requests in flight at the collaborators, interval timers,
    the notifications emitted on [this.events]) is an explicit [World]
    threaded through every method.  A method runs up to its first
    suspension point; the rest of it is a continuation ([cont]) stored with
    the request it waits for, resumed by [complete] when the collaborator
    answers.  What the collaborators answer, when timers fire and what the
    clock reads is left to the environment: any sequence of [action]s is a
    run.  Objects used as dictionaries ([_channels], [_joiningQueue],
    [_options], the [meta] of a post) are finite maps holding their own
    properties, keyed by strings.  A read [obj[name]] that misses them goes
    on to [Object.prototype]: [_channels] is read under names the caller
    chooses, and for those reads the members every object inherits are
    modelled ([inherited]).  Logging is left out, except where building the
    log line can throw. *)

From Stdlib Require Import ZArith Ascii.
From stdpp Require Import gmap strings list fin_maps.

Set Warnings "-register-all".

(** ** JavaScript values *)

Inductive value :=
| VUndefined
| VNull
| VBool (b : bool)
| VNum (n : Z)
| VStr (s : string)
| VObject (fields : list (string * value)).

(** [if (v)], [!v], [v || d] *)
Definition truthy (v : value) : bool :=
  match v with
  | VUndefined | VNull => false
  | VBool b => b
  | VNum n => negb (n =? 0)%Z
  | VStr s => negb (String.eqb s "")
  | VObject _ => true
  end.

(** [typeof v === 'string'] *)
Definition is_string (v : value) : bool :=
  match v with VStr _ => true | _ => false end.

(** A string-valued property that may be absent: [undefined] and [''] are
    both falsy. *)
Definition present (o : option string) : bool :=
  match o with
  | Some s => negb (String.eqb s "")
  | None => false
  end.

(** The property names every plain object inherits from
    [Object.prototype]: reading one of them from an object that has no own
    property of that name gives the inherited member, a function (for
    [__proto__], the prototype object itself), never [undefined]. *)
Definition Object_prototype : list string :=
  [ "constructor"; "__defineGetter__"; "__defineSetter__"; "hasOwnProperty";
    "__lookupGetter__"; "__lookupSetter__"; "isPrototypeOf";
    "propertyIsEnumerable"; "toString"; "valueOf"; "__proto__";
    "toLocaleString" ].

Definition inherited (name : string) : bool :=
  bool_decide (name ∈ Object_prototype).

Inductive error :=
| Error (message : string)        (* throw new Error(message) *)
| TypeError (property : string)   (* reading [property] of null/undefined *)
| ProviderFailure (reason : string). (* a rejection delivered by a collaborator *)

(** ** String operations used by the source *)

(** [s.split(sep)] for a one-character separator. *)
Fixpoint split (sep : ascii) (s : string) : list string :=
  match s with
  | EmptyString => [ "" ]
  | String a s' =>
      if Ascii.eqb a sep then "" :: split sep s'
      else match split sep s' with
           | x :: r => String a x :: r
           | [] => [ String a "" ]
           end
  end.

(** [xs.pop()] on a fresh array of strings: its last element. *)
Definition pop (xs : list string) : string := List.last xs "".

(** ** Data model *)

Record UserProfile := {
  name : value;
  location : string;
  image : value
}.

Definition profile_value (u : UserProfile) : value :=
  VObject [ ("name", name u); ("location", VStr (location u)); ("image", image u) ].

(** The handle [OrbitDB.createInstance] resolves to. *)
Record OrbitDB := { identity : string }.

(** The handle [orbitdb.log] resolves to. *)
Record Feed := { address : string }.

(** Modelled from the spec: [Channel] (./Channel.js) is not part of the
    sources at hand.  The spec gives it a name and a feed handle; the source
    builds it with [new Channel(this, channelName, feed)] and reads its
    [feed] property, which [_getChannelFeed] allows to be falsy. *)
Record Channel := {
  channelName : string;
  feed : option Feed
}.

(** A post: [{ content, meta }]. *)
Record Post := {
  content : string;
  meta : gmap string value
}.

(** The [source] argument of [addFile]. *)
Record Source := {
  filename : option string;
  directory : option string;
  buffer : option (list Byte.byte);
  source_meta : option (gmap string value)
}.

(** Notifications emitted on [this.events]. *)
Inductive event :=
| connected (profile : option UserProfile)
| disconnected
| joined (channel : string) (ch : Channel)
| left (channel : string)
| peers (addrs : list string).

(** The fields set by the constructor. *)
Record Orbit := {
  _orbitdb : option OrbitDB;
  _userProfile : option UserProfile;
  _channels : gmap string Channel;
  _peers : list string;
  _pollPeersTimer : option nat;
  _options : gmap string value;
  _joiningQueue : gmap string nat;
  _connecting : bool
}.

Definition set_orbitdb v (o : Orbit) : Orbit :=
  {| _orbitdb := v; _userProfile := _userProfile o; _channels := _channels o;
     _peers := _peers o; _pollPeersTimer := _pollPeersTimer o;
     _options := _options o; _joiningQueue := _joiningQueue o;
     _connecting := _connecting o |}.
Definition set_userProfile v (o : Orbit) : Orbit :=
  {| _orbitdb := _orbitdb o; _userProfile := v; _channels := _channels o;
     _peers := _peers o; _pollPeersTimer := _pollPeersTimer o;
     _options := _options o; _joiningQueue := _joiningQueue o;
     _connecting := _connecting o |}.
Definition set_channels v (o : Orbit) : Orbit :=
  {| _orbitdb := _orbitdb o; _userProfile := _userProfile o; _channels := v;
     _peers := _peers o; _pollPeersTimer := _pollPeersTimer o;
     _options := _options o; _joiningQueue := _joiningQueue o;
     _connecting := _connecting o |}.
Definition set_peers v (o : Orbit) : Orbit :=
  {| _orbitdb := _orbitdb o; _userProfile := _userProfile o; _channels := _channels o;
     _peers := v; _pollPeersTimer := _pollPeersTimer o;
     _options := _options o; _joiningQueue := _joiningQueue o;
     _connecting := _connecting o |}.
Definition set_pollPeersTimer v (o : Orbit) : Orbit :=
  {| _orbitdb := _orbitdb o; _userProfile := _userProfile o; _channels := _channels o;
     _peers := _peers o; _pollPeersTimer := v;
     _options := _options o; _joiningQueue := _joiningQueue o;
     _connecting := _connecting o |}.
Definition set_options v (o : Orbit) : Orbit :=
  {| _orbitdb := _orbitdb o; _userProfile := _userProfile o; _channels := _channels o;
     _peers := _peers o; _pollPeersTimer := _pollPeersTimer o;
     _options := v; _joiningQueue := _joiningQueue o;
     _connecting := _connecting o |}.
Definition set_joiningQueue v (o : Orbit) : Orbit :=
  {| _orbitdb := _orbitdb o; _userProfile := _userProfile o; _channels := _channels o;
     _peers := _peers o; _pollPeersTimer := _pollPeersTimer o;
     _options := _options o; _joiningQueue := v;
     _connecting := _connecting o |}.
Definition set_connecting v (o : Orbit) : Orbit :=
  {| _orbitdb := _orbitdb o; _userProfile := _userProfile o; _channels := _channels o;
     _peers := _peers o; _pollPeersTimer := _pollPeersTimer o;
     _options := _options o; _joiningQueue := _joiningQueue o;
     _connecting := v |}.

(** ** The run time around the object *)

(** What a promise settles with. *)
Inductive answer :=
| AUndefined
| ADb (db : OrbitDB)
| AFeed (f : Feed)
| AChannel (ch : Channel)
| AMember (name : string)               (* the member of [Object.prototype] of that name *)
| AAdded (path cid : string)            (* the entry [ipfs.add] resolves to *)
| APeers (entries : list (option string)) (* [addr] of each entry of [swarm.peers()] *)
| AEntry (hash : string).               (* what [feed.add] resolves to *)

Inductive promise :=
| Pending
| Fulfilled (a : answer)
| Rejected (e : error).

(** Asynchronous calls made to the collaborators. *)
Inductive request :=
| createInstance (options : gmap string value)   (* OrbitDB.createInstance *)
| orbitdb_disconnect (db : OrbitDB)              (* this._orbitdb.disconnect() *)
| orbitdb_log (db : OrbitDB) (channel : string) (options : gmap string value)
| feed_close (f : Feed)
| feed_add (f : Feed) (data : Post)
| ipfs_add_buffer (data : list Byte.byte)        (* ipfs.add(Buffer.from(data)) *)
| ipfs_add_path (path : string)                  (* ipfs.add({ path }) *)
| swarm_peers.

(** The two local functions of [addFile], with the arguments [bind] fixes. *)
Inductive adder :=
| _addToIpfsJs (data : list Byte.byte)
| _addToIpfsGo (filename filePath : string).

(** The rest of a method after the request it suspended on.  [p] is the
    promise the method returned to its caller. *)
Inductive cont :=
| connect_k (p : nat)
| disconnect_k (p : nat)
| join_k (channel : string) (p : nat)
| leave_k (channel : string) (p : nat)
| post_k (p : nat)
| addFile_k (channel : string) (source : Source) (addToIpfs : adder)
            (name : string) (size : value) (p : nat)
| update_k.

Inductive response :=
| Success (a : answer)
| Failure (e : error).

Record World := {
  node : Orbit;
  emitted : list event;                 (* oldest first *)
  promises : list promise;              (* a promise is its index *)
  requests : list (request * option cont); (* every call made; [None] once answered *)
  intervals : list bool;                (* a timer is its index; [true] while it runs *)
  clock : Z                             (* what [new Date().getTime()] reads *)
}.

Definition with_node (f : Orbit → Orbit) (w : World) : World :=
  {| node := f (node w); emitted := emitted w; promises := promises w;
     requests := requests w; intervals := intervals w; clock := clock w |}.

(** [this.events.emit(...)] *)
Definition emit (e : event) (w : World) : World :=
  {| node := node w; emitted := emitted w ++ [e]; promises := promises w;
     requests := requests w; intervals := intervals w; clock := clock w |}.

Definition new_promise (st : promise) (w : World) : nat * World :=
  (length (promises w),
   {| node := node w; emitted := emitted w; promises := promises w ++ [st];
      requests := requests w; intervals := intervals w; clock := clock w |}).

(** Settling a promise that is already settled has no effect. *)
Definition settle (p : nat) (st : promise) (w : World) : World :=
  {| node := node w; emitted := emitted w;
     promises := match promises w !! p with
                 | Some Pending => <[p := st]> (promises w)
                 | _ => promises w
                 end;
     requests := requests w; intervals := intervals w; clock := clock w |}.

Definition resolve (p : nat) (a : answer) : World → World := settle p (Fulfilled a).
Definition reject (p : nat) (e : error) : World → World := settle p (Rejected e).

(** Call a collaborator and suspend on the result with continuation [k]. *)
Definition await (rq : request) (k : cont) (w : World) : World :=
  {| node := node w; emitted := emitted w; promises := promises w;
     requests := requests w ++ [(rq, Some k)]; intervals := intervals w; clock := clock w |}.

(** [setInterval]: the new timer. *)
Definition setInterval (w : World) : nat * World :=
  (length (intervals w),
   {| node := node w; emitted := emitted w; promises := promises w;
      requests := requests w; intervals := intervals w ++ [true]; clock := clock w |}).

Definition clearInterval (t : nat) (w : World) : World :=
  {| node := node w; emitted := emitted w; promises := promises w;
     requests := requests w; intervals := <[t := false]> (intervals w); clock := clock w |}.

(** [new Orbit(ipfs, options)] in a fresh run time. *)
Definition new_Orbit (options : option (gmap string value)) : World :=
  {| node := {| _orbitdb := None; _userProfile := None; _channels := ∅;
                _peers := []; _pollPeersTimer := None;
                _options := default ∅ options; _joiningQueue := ∅;
                _connecting := false |};
     emitted := []; promises := []; requests := []; intervals := []; clock := 0 |}.

(** ** Methods of [Orbit] *)

Definition get_userProfile (o : Orbit) : option UserProfile := _userProfile o.
Definition get_channels (o : Orbit) : gmap string Channel := _channels o.
Definition get_identity (o : Orbit) : option string := identity <$> _orbitdb o.
Definition get_peers (o : Orbit) : list string := _peers o.
Definition online (o : Orbit) : bool := bool_decide (is_Some (_orbitdb o)).

Definition _startPollingForPeers (w : World) : World :=
  match _pollPeersTimer (node w) with
  | Some _ => w
  | None =>
      let '(t, w) := setInterval w in
      with_node (set_pollPeersTimer (Some t)) w
  end.

Definition connect (username : value) (w : World) : nat * World :=
  let '(p, w) := new_promise Pending w in
  match _orbitdb (node w) with
  | Some _ => (p, reject p (Error "Already connected") w)
  | None =>
  if _connecting (node w) then (p, reject p (Error "Already connecting") w)
  else
    let w := with_node (set_connecting true) w in
    if truthy username && negb (is_string username)
    then (p, reject p (Error "'username' must be a string") w)
    else
      let w := if truthy username
               then with_node (λ o, set_options (<["id" := username]> (_options o)) o) w
               else w in
      let w := with_node (λ o, set_userProfile
                 (Some {| name := default VUndefined (_options o !! "id");
                          location := "Earth"; image := VNull |}) o) w in
      (p, await (createInstance (_options (node w))) (connect_k p) w)
  end.

(** [connect] after [await OrbitDB.createInstance(...)].  The log line
    before the notification reads [this.userProfile.name]. *)
Definition connect_resume (p : nat) (r : response) (w : World) : option World :=
  match r with
  | Success (ADb db) =>
      let w := with_node (set_orbitdb (Some db)) w in
      let w := _startPollingForPeers w in
      match _userProfile (node w) with
      | None => Some (reject p (TypeError "name") w)
      | Some _ =>
          let w := emit (connected (get_userProfile (node w))) w in
          Some (resolve p AUndefined w)
      end
  | Success _ => None
  | Failure e => Some (reject p e w)
  end.

Definition disconnect (w : World) : nat * World :=
  let '(p, w) := new_promise Pending w in
  match _orbitdb (node w) with
  | None => (p, resolve p AUndefined w)
  | Some db => (p, await (orbitdb_disconnect db) (disconnect_k p) w)
  end.

(** [disconnect] after [await this._orbitdb.disconnect()]. *)
Definition disconnect_resume (p : nat) (r : response) (w : World) : option World :=
  match r with
  | Success _ =>
      let w := with_node (set_connecting false) w in
      let w := with_node (set_orbitdb None) w in
      let w := with_node (set_userProfile None) w in
      let w := with_node (set_channels ∅) w in
      let w := match _pollPeersTimer (node w) with
               | Some t => clearInterval t w
               | None => w
               end in
      let w := emit disconnected w in
      Some (resolve p AUndefined w)
  | Failure e => Some (reject p e w)
  end.

(** [{ accessController: { write: ['*'] } }] *)
Definition default_channelOptions : gmap string value :=
  {[ "accessController" := VObject [ ("write", VObject [ ("0", VStr "*") ]) ] ]}.

(** [join] is not an [async] function: it builds its promises itself.  An
    exception thrown by the executor of [new Promise] rejects that promise;
    reading [log] of a null [_orbitdb] throws.  [this._channels[channelName]]
    is truthy for an own entry, and also for a name that [_channels]
    inherits: then the promise is resolved with the inherited member.  Past
    that test the name is not an inherited one, and a read of
    [_joiningQueue] that misses its own entries gives [undefined]. *)
Definition join (channelName : string) (options : option (gmap string value))
    (w : World) : nat * World :=
  if String.eqb channelName ""
  then new_promise (Rejected (Error "Channel not specified")) w
  else match _channels (node w) !! channelName with
  | Some ch => new_promise (Fulfilled (AChannel ch)) w
  | None =>
      if inherited channelName
      then new_promise (Fulfilled (AMember channelName)) w
      else
      match _joiningQueue (node w) !! channelName with
      | Some p => (p, w)
      | None =>
          let '(p, w) := new_promise Pending w in
          let channelOptions := default ∅ options ∪ default_channelOptions in
          let w := match _orbitdb (node w) with
                   | None => reject p (TypeError "log") w
                   | Some db =>
                       await (orbitdb_log db channelName channelOptions)
                             (join_k channelName p) w
                   end in
          let w := with_node
                     (λ o, set_joiningQueue (<[channelName := p]> (_joiningQueue o)) o) w in
          (p, w)
      end
  end.

(** The callback given to [.then] in [join].  There is no rejection
    handler and the executor takes no [reject]: when the log cannot be
    opened nothing runs. *)
Definition join_resume (channelName : string) (p : nat) (r : response) (w : World)
    : option World :=
  match r with
  | Success (AFeed f) =>
      let ch := {| channelName := channelName; feed := Some f |} in
      let w := with_node (λ o, set_channels (<[channelName := ch]> (_channels o)) o) w in
      let w := match _channels (node w) !! channelName with
               | Some ch' => emit (joined channelName ch') w
               | None => w
               end in
      let w := with_node (λ o, set_joiningQueue (delete channelName (_joiningQueue o)) o) w in
      Some (match _channels (node w) !! channelName with
            | Some ch' => resolve p (AChannel ch') w
            | None => w
            end)
  | Success _ => None
  | Failure _ => Some w
  end.

(** For a name that [channels] inherits, [channel] is the inherited
    member: it is truthy and has no [feed], so [channel.feed.close()]
    throws on reading [close] of undefined. *)
Definition leave (channelName : string) (w : World) : nat * World :=
  let '(p, w) := new_promise Pending w in
  match get_channels (node w) !! channelName with
  | Some channel =>
      match feed channel with
      | Some f => (p, await (feed_close f) (leave_k channelName p) w)
      | None => (p, reject p (TypeError "close") w)
      end
  | None =>
      if inherited channelName then (p, reject p (TypeError "close") w)
      else
        let w := emit (left channelName) w in
        (p, resolve p AUndefined w)
  end.

(** [leave] after [await channel.feed.close()]. *)
Definition leave_resume (channelName : string) (p : nat) (r : response) (w : World)
    : option World :=
  match r with
  | Success _ =>
      let w := with_node (λ o, set_channels (delete channelName (_channels o)) o) w in
      let w := emit (left channelName) w in
      Some (resolve p AUndefined w)
  | Failure e => Some (reject p e w)
  end.

(** For a name that [channels] inherits, [this.channels[channelName]] is
    the inherited member, whose [feed] is undefined: [feed] is [null] and
    the check that follows throws.  For any other name with no entry it is
    [undefined], and reading [feed] of it throws a TypeError. *)
Definition _getChannelFeed (channelName : string) (o : Orbit) : error + Feed :=
  if String.eqb channelName "" then inl (Error "Channel not specified")
  else match get_channels o !! channelName with
       | None =>
           if inherited channelName
           then inl (Error ("Have not joined #" +:+ channelName))
           else inl (TypeError "feed")
       | Some channel =>
           match feed channel with
           | None => inl (Error ("Have not joined #" +:+ channelName))
           | Some f => inr f
           end
       end.

(** Throws, or returns the promise of [feed.add(data)]. *)
Definition _postMessage (channelName : string) (data : Post) (o : Orbit)
    : error + request :=
  match _getChannelFeed channelName o with
  | inl e => inl e
  | inr f => inr (feed_add f data)
  end.

(** [return this._postMessage(...)] at the end of an [async] method whose
    promise is [p]. *)
Definition return_postMessage (p : nat) (channelName : string) (data : Post)
    (w : World) : World :=
  match _postMessage channelName data (node w) with
  | inl e => reject p e w
  | inr rq => await rq (post_k p) w
  end.

Definition post_resume (p : nat) (r : response) (w : World) : option World :=
  match r with
  | Success a => Some (resolve p a w)
  | Failure e => Some (reject p e w)
  end.

Definition send (channelName message : string) (w : World) : nat * World :=
  let '(p, w) := new_promise Pending w in
  if String.eqb channelName "" then (p, reject p (Error "Channel must be specified") w)
  else if String.eqb message "" then (p, reject p (Error "Can't send an empty message") w)
  else match get_userProfile (node w) with
  | None =>
      (p, reject p (Error "Something went wrong: 'userProfile' is undefined") w)
  | Some u =>
      let data :=
        {| content := String.substring 0 2048 message;
           meta := {[ "from" := profile_value u; "type" := VStr "text";
                      "ts" := VNum (clock w) ]} |} in
      (p, return_postMessage p channelName data w)
  end.

(** The request a bound [addToIpfs] makes. *)
Definition adder_request (a : adder) : request :=
  match a with
  | _addToIpfsJs data => ipfs_add_buffer data
  | _addToIpfsGo _ filePath => ipfs_add_path filePath
  end.

(** [isDirectory] of the upload, from the entry [ipfs.add] resolved to. *)
Definition isDirectory (a : adder) (result_path : string) : bool :=
  match a with
  | _addToIpfsJs _ => false
  | _addToIpfsGo filename _ =>
      negb (String.eqb (pop (split "/" result_path)) filename)
  end.

(** The post [addFile] builds.  [Object.assign(a, b, c)]: later arguments
    win, so the caller's [meta] overrides every computed property. *)
Definition file_post (o : Orbit) (ts : Z) (source : Source) (a : adder)
    (name : string) (size : value) (result_path cid : string) : Post :=
  {| content := cid;
     meta := default ∅ (source_meta source)
             ∪ ({[ "size" := size; "name" := VStr name ]}
             ∪ {[ "from" := from_option profile_value VNull (get_userProfile o);
                  "type" := VStr (if isDirectory a result_path
                                  then "directory" else "file");
                  "ts" := VNum ts ]}) |}.

Definition addFile (channelName : string) (source : option Source) (w : World)
    : nat * World :=
  let '(p, w) := new_promise Pending w in
  match source with
  | None => (p, reject p (Error "Filename or directory not specified") w)
  | Some source =>
  if negb (present (filename source)) && negb (present (directory source))
  then (p, reject p (Error "Filename or directory not specified") w)
  else
    let isBuffer := bool_decide (is_Some (buffer source)) && present (filename source) in
    let name :=
      if present (directory source)
      then pop (split "/" (default "" (directory source)))
      else pop (split "/" (default "" (filename source))) in
    let size :=
      match source_meta source ≫= (.!! "size") with
      | Some v => if truthy v then v else VNum 0
      | None => VNum 0
      end in
    let addToIpfs :=
      if isBuffer then _addToIpfsJs (default [] (buffer source))
      else if present (directory source)
           then _addToIpfsGo name (default "" (directory source))
           else _addToIpfsGo name (default "" (filename source)) in
    (p, await (adder_request addToIpfs)
              (addFile_k channelName source addToIpfs name size p) w)
  end.

(** [addFile] after [await addToIpfs()]. *)
Definition addFile_resume (channelName : string) (source : Source) (a : adder)
    (name : string) (size : value) (p : nat) (r : response) (w : World)
    : option World :=
  match r with
  | Success (AAdded result_path cid) =>
      let data := file_post (node w) (clock w) source a name size result_path cid in
      Some (return_postMessage p channelName data w)
  | Success _ => None
  | Failure e => Some (reject p e w)
  end.

(** [_updateSwarmPeers]: the addresses of the entries that have one; a
    failed query is caught and gives [undefined]. *)
Definition _updateSwarmPeers (r : response) : option (option (list string)) :=
  match r with
  | Success (APeers entries) => Some (Some (omap id entries))
  | Success _ => None
  | Failure _ => Some None
  end.

(** [update], the function the interval timer runs, after
    [await this._updateSwarmPeers()]. *)
Definition update_resume (r : response) (w : World) : option World :=
  match _updateSwarmPeers r with
  | Some found =>
      let w := with_node (set_peers (default [] found)) w in
      Some (emit (peers (_peers (node w))) w)
  | None => None
  end.

(** ** The static constructor *)

(** [Orbit.create(ipfs, options)]: a fresh node, and [connect()] called on
    it without a username.  The promise returned is that of [connect]. *)
Definition create (options : option (gmap string value)) : nat * World :=
  connect VUndefined (new_Orbit options).

(** What the promise of [create] settles with, once the promise [p] of the
    [connect] it awaits has settled: the node, or the error of [connect]. *)
Definition create_result (p : nat) (w : World) : option (error + Orbit) :=
  match promises w !! p with
  | Some (Fulfilled _) => Some (inr (node w))
  | Some (Rejected e) => Some (inl e)
  | _ => None
  end.

(** ** The event loop *)

Definition resume (k : cont) (r : response) (w : World) : option World :=
  match k with
  | connect_k p => connect_resume p r w
  | disconnect_k p => disconnect_resume p r w
  | join_k c p => join_resume c p r w
  | leave_k c p => leave_resume c p r w
  | post_k p => post_resume p r w
  | addFile_k c source a name size p => addFile_resume c source a name size p r w
  | update_k => update_resume r w
  end.

Definition answered (i : nat) (w : World) : World :=
  {| node := node w; emitted := emitted w; promises := promises w;
     requests := alter (λ e, (e.1, None)) i (requests w);
     intervals := intervals w; clock := clock w |}.

(** The collaborator answers request [i]: the method suspended on it goes
    on.  A request answers once; an answer of the wrong shape is not an
    answer. *)
Definition complete (i : nat) (r : response) (w : World) : World :=
  match requests w !! i with
  | Some (_, Some k) => default w (resume k r (answered i w))
  | _ => w
  end.

(** Timer [t] fires: [update] runs up to [await this._updateSwarmPeers()]. *)
Definition fire (t : nat) (w : World) : World :=
  match intervals w !! t with
  | Some true => await swarm_peers update_k w
  | _ => w
  end.

Definition advance (dt : Z) (w : World) : World :=
  {| node := node w; emitted := emitted w; promises := promises w;
     requests := requests w; intervals := intervals w; clock := (clock w + dt)%Z |}.

(** Everything that can happen to a node: a call of a public method, an
    answer of a collaborator, a timer, the clock. *)
Inductive action :=
| do_connect (username : value)
| do_disconnect
| do_join (channelName : string) (options : option (gmap string value))
| do_leave (channelName : string)
| do_send (channelName message : string)
| do_addFile (channelName : string) (source : option Source)
| do_complete (i : nat) (r : response)
| do_fire (t : nat)
| do_advance (dt : Z).

Definition step (w : World) (a : action) : World :=
  match a with
  | do_connect username => (connect username w).2
  | do_disconnect => (disconnect w).2
  | do_join c options => (join c options w).2
  | do_leave c => (leave c w).2
  | do_send c message => (send c message w).2
  | do_addFile c source => (addFile c source w).2
  | do_complete i r => complete i r w
  | do_fire t => fire t w
  | do_advance dt => advance dt w
  end.

Definition run (acts : list action) (w : World) : World := foldl step w acts.

(** ** Observing a run *)

(** [join(c)] issued once per element of [optionss], none of the calls
    separated from the next by any other activity; the promises returned,
    in order. *)
Fixpoint join_all (channelName : string) (optionss : list (option (gmap string value)))
    (w : World) : list nat * World :=
  match optionss with
  | [] => ([], w)
  | options :: rest =>
      let '(p, w) := join channelName options w in
      let '(ps, w) := join_all channelName rest w in
      (p :: ps, w)
  end.

(** The calls to [orbitdb.log] for a channel among a list of requests. *)
Definition is_log_open (channelName : string) (e : request * option cont) : bool :=
  match e.1 with
  | orbitdb_log _ c _ => String.eqb c channelName
  | _ => false
  end.

Definition log_opens (channelName : string) (w : World) : nat :=
  length (filter (λ e, is_log_open channelName e = true) (requests w)).

Definition is_joined (channelName : string) (e : event) : bool :=
  match e with
  | joined c _ => String.eqb c channelName
  | _ => false
  end.

Definition joined_count (channelName : string) (w : World) : nat :=
  length (filter (λ e, is_joined channelName e = true) (emitted w)).

Definition is_peers (e : event) : bool :=
  match e with peers _ => true | _ => false end.

Definition is_left (channelName : string) (e : event) : bool :=
  match e with
  | left c => String.eqb c channelName
  | _ => false
  end.

(** The posts handed to [feed.add], oldest first. *)
Definition appended (w : World) : list Post :=
  omap (λ e, match e.1 with feed_add _ data => Some data | _ => None end)
       (requests w).

(** The continuations of the requests still in flight. *)
Definition pending (w : World) : list cont := omap snd (requests w).

(** The promise a suspended method will settle. *)
Definition cont_promise (k : cont) : option nat :=
  match k with
  | connect_k p | disconnect_k p | join_k _ p | leave_k _ p | post_k p
  | addFile_k _ _ _ _ _ p => Some p
  | update_k => None
  end.

Definition joins (channelName : string) (k : cont) : bool :=
  match k with
  | join_k c _ => String.eqb c channelName
  | _ => false
  end.

(** The channels whose log is being opened. *)
Definition join_slot (k : cont) : option string :=
  match k with
  | join_k c _ => Some c
  | _ => None
  end.

Definition joining (w : World) : list string := omap join_slot (pending w).

(** A request made and answered. *)
Definition called (rq : request) (w : World) : World :=
  {| node := node w; emitted := emitted w; promises := promises w;
     requests := requests w ++ [(rq, None)]; intervals := intervals w;
     clock := clock w |}.

(** The list carried by the last [peers] notification, [[]] before the
    first. *)
Definition last_peers (es : list event) : list string :=
  foldl (λ found e, match e with peers addrs => addrs | _ => found end) [] es.

(** The continuations of [connect] and [disconnect]. *)
Definition lifecycle (k : cont) : bool :=
  match k with
  | connect_k _ | disconnect_k _ => true
  | _ => false
  end.

(** The continuations of [send] and [addFile]. *)
Definition posting (k : cont) : bool :=
  match k with
  | post_k _ | addFile_k _ _ _ _ _ _ => true
  | _ => false
  end.

(** A property of the [meta] the caller of [addFile] supplied, if any. *)
Definition given (source : Source) (key : string) : option value :=
  source_meta source ≫= (.!! key).

(** Whether the character [c] occurs in [s]. *)
Fixpoint occurs (c : ascii) (s : string) : bool :=
  match s with
  | EmptyString => false
  | String a s' => Ascii.eqb a c || occurs c s'
  end.

(** ** Vocabulary of the specification *)

(** The error [_getChannelFeed] raises for a channel that was not joined. *)
Definition ChannelNotJoined (channelName : string) : error :=
  Error ("Have not joined #" +:+ channelName).

(** The classification the specification of [addFile] speaks of: a
    buffer source has a filename and a buffer; the expected name is the
    trailing segment of the directory, or else of the filename. *)
Definition buffer_source (source : Source) : bool :=
  bool_decide (is_Some (buffer source)) && present (filename source).

Definition expected_name (source : Source) : string :=
  if present (directory source)
  then pop (split "/" (default "" (directory source)))
  else pop (split "/" (default "" (filename source))).

(** [size] in [addFile]: [source.meta.size] when truthy, or [0]. *)
Definition source_size (source : Source) : value :=
  match source_meta source ≫= (.!! "size") with
  | Some v => if truthy v then v else VNum 0
  | None => VNum 0
  end.

(** The adder [addFile] binds for a source. *)
Definition bound_adder (source : Source) : adder :=
  if buffer_source source then _addToIpfsJs (default [] (buffer source))
  else if present (directory source)
       then _addToIpfsGo (expected_name source) (default "" (directory source))
       else _addToIpfsGo (expected_name source) (default "" (filename source)).

(** ** Invariants *)

(** The worlds a node can be in: what some sequence of actions makes of a
    fresh one. *)
Definition reachable (w : World) : Prop :=
  ∃ options acts, w = run acts (new_Orbit options).

(** Every promise a suspended method holds has been made. *)
Definition promises_known (w : World) : Prop :=
  Forall (λ k, ∀ q, cont_promise k = Some q → q < length (promises w)) (pending w).

(** At most one open per channel is in flight, and only for channels that
    have an entry in the joining queue. *)
Definition queue_sound (w : World) : Prop :=
  NoDup (joining w)
  ∧ ∀ c, c ∈ joining w → is_Some (_joiningQueue (node w) !! c).

(** A connected node has a poll timer handle, and the only timer that can
    be running is the one the handle names. *)
Definition polling_sound (w : World) : Prop :=
  (is_Some (_orbitdb (node w)) → is_Some (_pollPeersTimer (node w)))
  ∧ ∀ t, intervals w !! t = Some true → _pollPeersTimer (node w) = Some t.

(** [c] is not live, its entry in the joining queue is [p], and no open
    of its log is in flight: nothing is left that would remove the entry. *)
Definition wedged (c : string) (p : nat) (w : World) : Prop :=
  _joiningQueue (node w) !! c = Some p
  ∧ _channels (node w) !! c = None
  ∧ Forall (λ k, joins c k = false) (pending w).

(** [p] is pending and no suspended method holds it. *)
Definition orphaned (p : nat) (w : World) : Prop :=
  promises w !! p = Some Pending
  ∧ Forall (λ k, cont_promise k ≠ Some p) (pending w).

(** The open of the log of [c] is request [i] and its promise is [p];
    request [i] set aside, nothing else opens [c] or holds [p]. *)
Definition opening (c : string) (p i : nat) (w : World) : Prop :=
  (∃ rq, requests w !! i = Some (rq, Some (join_k c p)))
  ∧ wedged c p (answered i w)
  ∧ orphaned p (answered i w).

(** [setInterval] was called at most once, and [_pollPeersTimer] holds
    what it returned. *)
Definition one_timer (w : World) : Prop :=
  match _pollPeersTimer (node w) with
  | None => intervals w = []
  | Some t => t = 0 ∧ length (intervals w) = 1
  end.

(** No provider, [_connecting] set, and neither a [connect] nor a
    [disconnect] in flight: nothing is left that would reset the flag. *)
Definition locked (w : World) : Prop :=
  _orbitdb (node w) = None
  ∧ _connecting (node w) = true
  ∧ Forall (λ k, lifecycle k = false) (pending w).

(** The profile [connect] builds from the options of the node. *)
Definition profile_of (o : Orbit) (u : UserProfile) : Prop :=
  name u = default VUndefined (_options o !! "id")
  ∧ location u = "Earth" ∧ image u = VNull.

(** The profile, when there is one, is the one [connect] builds; every
    [connected] notification carries a profile. *)
Definition profiles_sound (w : World) : Prop :=
  (∀ u, _userProfile (node w) = Some u → profile_of (node w) u)
  ∧ Forall (λ e, ∀ o, e = connected o →
                 ∃ u, o = Some u ∧ location u = "Earth" ∧ image u = VNull)
           (emitted w).

(** Every channel in the registry is stored under its own name, has a
    feed, and has no entry left in the joining queue. *)
Definition registry_sound (w : World) : Prop :=
  ∀ c ch, _channels (node w) !! c = Some ch →
    channelName ch = c ∧ is_Some (feed ch) ∧ _joiningQueue (node w) !! c = None.

(** No name that objects inherit is an own key of the registry or of the
    joining queue, or the name of a log being opened. *)
Definition own_names (w : World) : Prop :=
  (∀ c, is_Some (_channels (node w) !! c) → inherited c = false)
  ∧ (∀ c, is_Some (_joiningQueue (node w) !! c) → inherited c = false)
  ∧ Forall (λ k, ∀ c, join_slot k = Some c → inherited c = false) (pending w).

(** The promises the suspended methods hold. *)
Definition suspended (w : World) : list nat := omap cont_promise (pending w).

(** No two suspended methods hold the same promise, and each promise held
    is pending. *)
Definition promises_pending (w : World) : Prop :=
  NoDup (suspended w)
  ∧ Forall (λ p, promises w !! p = Some Pending) (suspended w).

(** ** Concrete worlds *)

Definition alice_db : OrbitDB := {| identity := "id-alice" |}.
Definition general_feed : Feed := {| address := "/orbitdb/zd/general" |}.
Definition general : Channel := {| channelName := "general"; feed := Some general_feed |}.

(** connect as alice, the provider answers. *)
Definition alice_online : World :=
  run [do_connect (VStr "alice"); do_complete 0 (Success (ADb alice_db))] (new_Orbit None).

(** ... then join "general", the log opens. *)
Definition alice_in_general : World :=
  run [do_join "general" None; do_complete 1 (Success (AFeed general_feed))] alice_online.

(** A source from the browser whose caller-supplied [meta] names a type. *)
Definition typed_buffer_source : Source :=
  {| filename := Some "a.txt"; directory := None;
     buffer := Some [Byte.x68; Byte.x69];
     source_meta := Some {[ "type" := VStr "directory" ]} |}.

Definition plain_path_source : Source :=
  {| filename := Some "docs/a.txt"; directory := None; buffer := None;
     source_meta := None |}.

(** ... then disconnect and connect again. *)
Definition alice_back_online : World :=
  run [do_disconnect; do_complete 1 (Success AUndefined);
       do_connect VUndefined; do_complete 2 (Success (ADb alice_db))] alice_online.

(** ... or, from [alice_online], one poll of the swarm. *)
Definition alice_polled : World :=
  run [do_fire 0; do_complete 1 (Success (APeers [Some "/ip4/10.0.0.7"; None]))]
      alice_online.

(** A buffer with no name to go with it. *)
Definition buffer_only_source : Source :=
  {| filename := None; directory := None;
     buffer := Some [Byte.x68; Byte.x69]; source_meta := None |}.

(** A path source whose caller-supplied [meta] has a null [size]. *)
Definition null_size_source : Source :=
  {| filename := Some "docs/a.txt"; directory := None; buffer := None;
     source_meta := Some {[ "size" := VNull ]} |}.

(** A text of [n] characters. *)
Fixpoint filler (n : nat) : string :=
  match n with
  | O => ""
  | S n => String "x" (filler n)
  end.

(** * Properties *)

(** ** Lists as stores *)

Lemma lookup_snoc {A} (l : list A) (x : A) : (l ++ [x]) !! length l = Some x.
Proof. by apply list_lookup_middle. Qed.

Lemma insert_snoc {A} (l : list A) (x y : A) : <[length l := y]> (l ++ [x]) = l ++ [y].
Proof. induction l as [|a l IH]; simpl; [done | by rewrite IH]. Qed.

Lemma alter_snoc {A} (f : A → A) (l : list A) (x : A) :
  alter f (length l) (l ++ [x]) = l ++ [f x].
Proof. induction l as [|a l IH]; simpl; [done | by f_equal]. Qed.

Lemma complete_await i rq k r w :
  i = length (requests w) →
  complete i r (await rq k w) = default (await rq k w) (resume k r (called rq w)).
Proof.
  intros ->.
  unfold complete, await, answered, called; cbn [requests node emitted promises intervals clock].
  by rewrite lookup_snoc, alter_snoc.
Qed.

Lemma complete_last i r w rqs rq k :
  requests w = rqs ++ [(rq, Some k)] → i = length rqs →
  complete i r w = default w (resume k r (answered i w)).
Proof. intros Hw ->. unfold complete. by rewrite Hw, lookup_snoc. Qed.

(** Destructs a world into its fields. *)
Ltac world w :=
  destruct w as [[? ? ? ? ? ? ? ?] ? ? ? ? ?];
  cbn [node emitted promises requests intervals clock
       _orbitdb _userProfile _channels _peers _pollPeersTimer _options
       _joiningQueue _connecting] in *.

(** Unfolds the primitives of the run time and projects the fields. *)
Ltac fields :=
  cbn [node emitted promises requests intervals clock
       _orbitdb _userProfile _channels _peers _pollPeersTimer _options
       _joiningQueue _connecting fst snd from_option id andb orb negb
       answered await called resolve reject settle new_promise emit with_node
       setInterval clearInterval
       set_orbitdb set_userProfile set_channels set_peers
       set_pollPeersTimer set_options set_joiningQueue set_connecting] in *.

Ltac prims :=
  repeat (progress (
    unfold return_postMessage, _postMessage, _startPollingForPeers,
      get_channels, get_userProfile;
    fields;
    rewrite ?lookup_snoc, ?alter_snoc, ?insert_snoc)).

(** Enters a method. *)
Ltac call :=
  unfold connect, disconnect, join, leave, send, addFile; prims;
  unfold _getChannelFeed, get_channels; prims.

(** Answers the request a method has just made. *)
Ltac answer :=
  unfold complete; prims;
  unfold resume, leave_resume, disconnect_resume, connect_resume, join_resume,
    post_resume, addFile_resume, update_resume;
  prims.

(** The cases of a call of a method, a timer or the clock, each closed
    by [tac]. *)
Ltac each_call tac :=
  unfold fire, advance; call; repeat case_match; prims; tac.

(** The cases of a resumed method, each closed by [tac]. *)
Ltac each_resume tac :=
  unfold leave_resume, disconnect_resume, connect_resume, join_resume,
    post_resume, addFile_resume, update_resume, _updateSwarmPeers;
  repeat (prims; case_match); prims; tac.

(** ** Substrings *)

Lemma substring_0_all (n : nat) (s : string) :
  String.length s ≤ n → String.substring 0 n s = s.
Proof.
  revert n; induction s as [|a s IH]; intros [|n] Hn; simpl in *; try done; try lia.
  f_equal. apply IH. lia.
Qed.

Lemma substring_0_length (n : nat) (s : string) :
  n ≤ String.length s → String.length (String.substring 0 n s) = n.
Proof.
  revert n; induction s as [|a s IH]; intros [|n] Hn; simpl in *; try done; try lia.
  f_equal. apply IH. lia.
Qed.

Lemma substring_0_prefix (n : nat) (s : string) :
  ∃ rest, s = String.substring 0 n s +:+ rest.
Proof.
  revert n; induction s as [|a s IH]; intros [|n]; simpl.
  - by exists "".
  - by exists "".
  - by exists (String a s).
  - destruct (IH n) as [rest Hrest]. exists rest.
    change (String a s = String a (String.substring 0 n s +:+ rest)). by f_equal.
Qed.

(** ** Posting text *)

Lemma send_joined w c message u ch f :
  c ≠ "" → message ≠ "" →
  _userProfile (node w) = Some u →
  _channels (node w) !! c = Some ch → feed ch = Some f →
  send c message w =
    (length (promises w),
     await (feed_add f {| content := String.substring 0 2048 message;
                          meta := {[ "from" := profile_value u; "type" := VStr "text";
                                     "ts" := VNum (clock w) ]} |})
           (post_k (length (promises w))) (new_promise Pending w).2).
Proof.
  intros Hc Hm Hu Hch Hf. unfold send.
  destruct (new_promise Pending w) as [p w1] eqn:Hnew.
  injection Hnew as <- <-.
  apply String.eqb_neq in Hc, Hm. rewrite Hc, Hm.
  cbn [new_promise snd]. unfold get_userProfile. cbn [node]. rewrite Hu.
  unfold return_postMessage, _postMessage, _getChannelFeed, get_channels.
  cbn [node]. by rewrite Hc, Hch, Hf.
Qed.

(** C9: on a session with a profile and a live channel [c], [send] appends
    one post; its content is the message itself when the message has at
    most 2048 characters, and otherwise the first 2048 characters of it
    (a prefix of the message, of length exactly 2048). *)
Theorem send_truncates w c message u ch f :
  c ≠ "" → message ≠ "" →
  _userProfile (node w) = Some u →
  _channels (node w) !! c = Some ch → feed ch = Some f →
  ∃ data,
    requests (send c message w).2
      = requests w ++ [(feed_add f data, Some (post_k (send c message w).1))]
    ∧ (String.length message ≤ 2048 → content data = message)
    ∧ (2048 < String.length message →
       String.length (content data) = 2048
       ∧ ∃ rest, message = content data +:+ rest).
Proof.
  intros Hc Hm Hu Hch Hf. rewrite (send_joined w c message u ch f) by done.
  eexists; split; [reflexivity|]. cbn [content]. split.
  - apply substring_0_all.
  - intros Hlen. split; [apply substring_0_length; lia | apply substring_0_prefix].
Qed.

Lemma send_truncates_witness :
  ∃ data,
    requests (send "general" (filler 3000) alice_in_general).2
      = requests alice_in_general
        ++ [(feed_add general_feed data,
             Some (post_k (send "general" (filler 3000) alice_in_general).1))]
    ∧ (String.length (filler 3000) ≤ 2048 → content data = filler 3000)
    ∧ (2048 < String.length (filler 3000) →
       String.length (content data) = 2048
       ∧ ∃ rest, filler 3000 = content data +:+ rest).
Proof.
  apply (send_truncates alice_in_general "general" (filler 3000)
           {| name := VStr "alice"; location := "Earth"; image := VNull |}
           general general_feed);
    [ discriminate | vm_compute; discriminate | reflexivity | reflexivity | reflexivity ].
Defined.

(** A text of 3000 characters is posted as its first 2048; "hello" as it
    is. *)
Example send_long_and_short :
  content <$> appended (run [do_send "general" (filler 3000);
                             do_send "general" "hello"] alice_in_general)
  = [filler 2048; "hello"].
Proof. vm_compute. done. Qed.

(** ** Leaving a channel *)

(** C4: [leave] of a name with no live channel leaves the object, the
    requests and the timers as they were.  For a name that [channels] does
    not inherit from [Object.prototype] it emits [left] with the name and
    succeeds.  For an inherited name the member found is truthy and has no
    feed: the call fails with the TypeError of [channel.feed.close()] and
    emits nothing. *)
Theorem leave_unjoined w c :
  _channels (node w) !! c = None →
  let w1 := (leave c w).2 in
  node w1 = node w ∧ requests w1 = requests w ∧ intervals w1 = intervals w
  ∧ (leave c w).1 = length (promises w)
  ∧ (inherited c = false →
       emitted w1 = emitted w ++ [left c]
       ∧ promises w1 = promises w ++ [Fulfilled AUndefined])
  ∧ (inherited c = true →
       emitted w1 = emitted w
       ∧ promises w1 = promises w ++ [Rejected (TypeError "close")]).
Proof.
  intros Hch. world w. call. rewrite Hch.
  destruct (inherited c); prims; repeat split; done.
Qed.

Lemma leave_unjoined_witness :
  let w1 := (leave "lobby" alice_online).2 in
  node w1 = node alice_online ∧ requests w1 = requests alice_online
  ∧ intervals w1 = intervals alice_online
  ∧ (leave "lobby" alice_online).1 = length (promises alice_online)
  ∧ (inherited "lobby" = false →
       emitted w1 = emitted alice_online ++ [left "lobby"]
       ∧ promises w1 = promises alice_online ++ [Fulfilled AUndefined])
  ∧ (inherited "lobby" = true →
       emitted w1 = emitted alice_online
       ∧ promises w1 = promises alice_online ++ [Rejected (TypeError "close")]).
Proof. apply (leave_unjoined alice_online "lobby"). reflexivity. Defined.

(** C4, as stated, fails: no channel "lobby" was joined, and [leave]
    emits [left "lobby"] all the same. *)
Lemma leave_unjoined_emits_left :
  _channels (node alice_online) !! "lobby" = None
  ∧ filter (λ e, is_left "lobby" e = true) (emitted alice_online) = []
  ∧ filter (λ e, is_left "lobby" e = true) (emitted (leave "lobby" alice_online).2)
    = [left "lobby"].
Proof. vm_compute. done. Qed.

(** For a name that [channels] inherits, [leave] fails and emits
    nothing. *)
Example leave_inherited_name :
  let w := run [do_leave "constructor"] alice_online in
  promises w !! 1 = Some (Rejected (TypeError "close"))
  ∧ filter (λ e, is_left "constructor" e = true) (emitted w) = []
  ∧ node w = node alice_online.
Proof. vm_compute. done. Qed.

(** C5: [leave] of a live channel suspends on closing the feed.  When
    closing fails, the call fails with that error, the channel stays in
    the registry and nothing is emitted; when closing succeeds, the channel
    is removed, [left] is emitted and the call succeeds. *)
Theorem leave_follows_close w c ch f :
  _channels (node w) !! c = Some ch → feed ch = Some f →
  let p := (leave c w).1 in
  let w1 := (leave c w).2 in
  p = length (promises w)
  ∧ requests w1 = requests w ++ [(feed_close f, Some (leave_k c p))]
  ∧ promises w1 !! p = Some Pending
  ∧ node w1 = node w ∧ emitted w1 = emitted w
  ∧ (∀ e, let w2 := complete (length (requests w)) (Failure e) w1 in
       promises w2 !! p = Some (Rejected e)
       ∧ _channels (node w2) !! c = Some ch
       ∧ node w2 = node w ∧ emitted w2 = emitted w)
  ∧ (∀ a, let w2 := complete (length (requests w)) (Success a) w1 in
       promises w2 !! p = Some (Fulfilled AUndefined)
       ∧ _channels (node w2) = delete c (_channels (node w))
       ∧ emitted w2 = emitted w ++ [left c]).
Proof.
  intros Hch Hf. world w. call. rewrite Hch, Hf. prims.
  repeat split; try done; intros; answer; by rewrite ?lookup_snoc.
Qed.

Lemma leave_follows_close_witness :
  let p := (leave "general" alice_in_general).1 in
  let w1 := (leave "general" alice_in_general).2 in
  p = length (promises alice_in_general)
  ∧ requests w1 = requests alice_in_general
                  ++ [(feed_close general_feed, Some (leave_k "general" p))]
  ∧ promises w1 !! p = Some Pending
  ∧ node w1 = node alice_in_general ∧ emitted w1 = emitted alice_in_general
  ∧ (∀ e, let w2 := complete (length (requests alice_in_general)) (Failure e) w1 in
       promises w2 !! p = Some (Rejected e)
       ∧ _channels (node w2) !! "general" = Some general
       ∧ node w2 = node alice_in_general ∧ emitted w2 = emitted alice_in_general)
  ∧ (∀ a, let w2 := complete (length (requests alice_in_general)) (Success a) w1 in
       promises w2 !! p = Some (Fulfilled AUndefined)
       ∧ _channels (node w2) = delete "general" (_channels (node alice_in_general))
       ∧ emitted w2 = emitted alice_in_general ++ [left "general"]).
Proof.
  apply (leave_follows_close alice_in_general "general" general general_feed);
    reflexivity.
Defined.

(** C5, as stated, fails: closing the feed of "general" fails, and so
    does [leave]; the channel is still registered and no [left] was
    emitted. *)
Lemma leave_close_failure_surfaces :
  let w := run [do_leave "general";
                do_complete 2 (Failure (ProviderFailure "close failed"))]
               alice_in_general in
  promises w !! 2 = Some (Rejected (ProviderFailure "close failed"))
  ∧ _channels (node w) !! "general" = Some general
  ∧ filter (λ e, is_left "general" e = true) (emitted w) = [].
Proof. vm_compute. done. Qed.

(** ** Connecting *)

Lemma connect_rejects w v :
  _orbitdb (node w) = None → _connecting (node w) = false →
  truthy v = true → is_string v = false →
  connect v w =
    (length (promises w),
     reject (length (promises w)) (Error "'username' must be a string")
       (with_node (set_connecting true) (new_promise Pending w).2)).
Proof.
  intros Hdb Hc Hv Hs. world w. subst. unfold connect. cbn [new_promise node _orbitdb].
  cbn [with_node node _connecting]. by rewrite Hv, Hs.
Qed.

Lemma connect_busy w v :
  _orbitdb (node w) = None → _connecting (node w) = true →
  connect v w =
    (length (promises w),
     reject (length (promises w)) (Error "Already connecting")
       (new_promise Pending w).2).
Proof.
  intros Hdb Hc. unfold connect. cbn [new_promise node]. by rewrite Hdb, Hc.
Qed.

(** C6: a truthy [username] that is not a string makes [connect] fail
    with "'username' must be a string".  By then [_connecting] is set and
    nothing else has changed: no provider is asked for, no profile is
    built, nothing is emitted.  Every [connect] that follows fails with
    "Already connecting", and [disconnect] changes nothing. *)
Theorem connect_bad_username w v :
  _orbitdb (node w) = None → _connecting (node w) = false →
  truthy v = true → is_string v = false →
  let p := (connect v w).1 in
  let w1 := (connect v w).2 in
  promises w1 !! p = Some (Rejected (Error "'username' must be a string"))
  ∧ node w1 = set_connecting true (node w)
  ∧ requests w1 = requests w ∧ emitted w1 = emitted w
  ∧ (∀ v', let p2 := (connect v' w1).1 in
           let w2 := (connect v' w1).2 in
       promises w2 !! p2 = Some (Rejected (Error "Already connecting"))
       ∧ node w2 = node w1 ∧ requests w2 = requests w)
  ∧ node (disconnect w1).2 = node w1.
Proof.
  intros Hdb Hc Hv Hs. cbn zeta. rewrite (connect_rejects w v) by done.
  set (w1 := reject _ _ _). cbn [fst snd].
  assert (_orbitdb (node w1) = None) as Hdb1 by done.
  assert (_connecting (node w1) = true) as Hc1 by done.
  split.
  { subst w1. unfold reject, settle; cbn [promises new_promise with_node snd].
    by rewrite lookup_snoc, insert_snoc, lookup_snoc. }
  split; [done|]. split; [done|]. split; [done|].
  split.
  - intros v'. rewrite (connect_busy w1 v') by done. cbn [fst snd].
    split; [|done]. unfold reject, settle; cbn [promises new_promise snd].
    by rewrite !lookup_snoc, insert_snoc, lookup_snoc.
  - unfold disconnect. cbn [new_promise node]. by rewrite Hdb1.
Qed.

Lemma connect_bad_username_witness :
  let w := new_Orbit None in
  let p := (connect (VNum 42) w).1 in
  let w1 := (connect (VNum 42) w).2 in
  promises w1 !! p = Some (Rejected (Error "'username' must be a string"))
  ∧ node w1 = set_connecting true (node w)
  ∧ requests w1 = requests w ∧ emitted w1 = emitted w
  ∧ (∀ v', let p2 := (connect v' w1).1 in
           let w2 := (connect v' w1).2 in
       promises w2 !! p2 = Some (Rejected (Error "Already connecting"))
       ∧ node w2 = node w1 ∧ requests w2 = requests w)
  ∧ node (disconnect w1).2 = node w1.
Proof. apply (connect_bad_username (new_Orbit None) (VNum 42)); reflexivity. Defined.

(** The same on a fresh node: after [connect(42)] has failed the node is
    left connecting, and the [connect] that follows fails with "Already
    connecting". *)
Example connect_bad_username_leaves_connecting :
  let w0 := new_Orbit None in
  let w1 := run [do_connect (VNum 42)] w0 in
  let w2 := run [do_connect (VStr "alice")] w1 in
  _connecting (node w0) = false
  ∧ promises w1 !! 0 = Some (Rejected (Error "'username' must be a string"))
  ∧ _connecting (node w1) = true
  ∧ promises w2 !! 1 = Some (Rejected (Error "Already connecting")).
Proof. vm_compute. done. Qed.

(** Nor does [disconnect] help: it returns at once on a node with no
    provider, and the flag stays. *)
Example connect_after_bad_username :
  let w := run [do_connect (VNum 42); do_disconnect; do_connect (VStr "alice")]
               (new_Orbit None) in
  promises w = [Rejected (Error "'username' must be a string");
                Fulfilled AUndefined;
                Rejected (Error "Already connecting")]
  ∧ requests w = [] ∧ online (node w) = false.
Proof. vm_compute. done. Qed.

(** ** Posting to a channel that was not joined *)

Lemma _getChannelFeed_not_joined c o :
  _getChannelFeed c o = inl (ChannelNotJoined c)
  ↔ c ≠ ""
    ∧ ((∃ ch, _channels o !! c = Some ch ∧ feed ch = None)
       ∨ (_channels o !! c = None ∧ inherited c = true)).
Proof.
  unfold _getChannelFeed, get_channels, ChannelNotJoined.
  destruct (String.eqb_spec c "") as [->|Hc].
  - split; [discriminate | by intros [? _]].
  - destruct (_channels o !! c) as [ch|]; [destruct (feed ch) eqn:Hf|].
    + split; [discriminate|].
      intros [_ [(ch' & [= <-] & Hf') | [? _]]]; congruence.
    + split; [eauto 10 | done].
    + destruct (inherited c).
      * split; [eauto | done].
      * split; [discriminate|]. intros [_ [(ch' & ? & _) | [_ ?]]]; done.
Qed.

Lemma _getChannelFeed_unjoined c o :
  c ≠ "" → inherited c = false → _channels o !! c = None →
  _getChannelFeed c o = inl (TypeError "feed").
Proof.
  intros Hc Hi Hch. apply String.eqb_neq in Hc.
  unfold _getChannelFeed, get_channels. by rewrite Hc, Hch, Hi.
Qed.

Lemma _getChannelFeed_joined c o ch f :
  c ≠ "" → _channels o !! c = Some ch → feed ch = Some f →
  _getChannelFeed c o = inr f.
Proof.
  intros Hc Hch Hf. apply String.eqb_neq in Hc.
  unfold _getChannelFeed, get_channels. by rewrite Hc, Hch, Hf.
Qed.

Lemma send_unjoined w c message u :
  c ≠ "" → inherited c = false → message ≠ "" →
  _userProfile (node w) = Some u → _channels (node w) !! c = None →
  send c message w =
    (length (promises w),
     reject (length (promises w)) (TypeError "feed") (new_promise Pending w).2).
Proof.
  intros Hc Hi Hm Hu Hch. unfold send. cbn [new_promise].
  apply String.eqb_neq in Hm. rewrite Hm.
  rewrite (proj2 (String.eqb_neq c "")) by done.
  unfold get_userProfile. cbn [node]. rewrite Hu.
  unfold return_postMessage, _postMessage. cbn [node].
  by rewrite _getChannelFeed_unjoined.
Qed.

(** [addFile] up to its suspension on [addToIpfs()]. *)
Lemma addFile_call w c source :
  present (filename source) || present (directory source) = true →
  addFile c (Some source) w =
    (length (promises w),
     await (adder_request (bound_adder source))
           (addFile_k c source (bound_adder source) (expected_name source)
                      (source_size source) (length (promises w)))
           (new_promise Pending w).2).
Proof.
  intros Hsrc. unfold addFile. cbn [new_promise].
  apply orb_true_iff in Hsrc.
  assert (negb (present (filename source)) && negb (present (directory source))
          = false) as ->; [|done].
  destruct Hsrc as [-> | ->]; [done | by rewrite andb_false_r].
Qed.

(** C7: on a name with no live channel, and that [channels] does not
    inherit from [Object.prototype], [send] and [addFile] fail with the
    TypeError of reading [feed] of undefined, which is not the "Have not
    joined" error; nothing is appended. *)
Theorem post_unjoined_TypeError w c :
  c ≠ "" → inherited c = false → _channels (node w) !! c = None →
  TypeError "feed" ≠ ChannelNotJoined c
  ∧ (∀ message u, message ≠ "" → _userProfile (node w) = Some u →
       let p := (send c message w).1 in
       let w1 := (send c message w).2 in
       promises w1 !! p = Some (Rejected (TypeError "feed"))
       ∧ requests w1 = requests w)
  ∧ (∀ source path cid,
       present (filename source) || present (directory source) = true →
       let p := (addFile c (Some source) w).1 in
       let w1 := (addFile c (Some source) w).2 in
       let w2 := complete (length (requests w)) (Success (AAdded path cid)) w1 in
       promises w2 !! p = Some (Rejected (TypeError "feed"))
       ∧ requests w2 = requests w ++ [(adder_request (bound_adder source), None)]).
Proof.
  intros Hc Hi Hch. split; [done|]. split.
  - intros message u Hm Hu. cbn zeta.
    rewrite (send_unjoined w c message u) by done.
    world w. prims. done.
  - intros source path cid Hsrc. cbn zeta.
    rewrite (addFile_call w c source) by done. cbn [fst snd].
    rewrite complete_await by done.
    cbn [resume addFile_resume]. unfold return_postMessage, _postMessage.
    rewrite _getChannelFeed_unjoined by done.
    world w. prims. done.
Qed.

Lemma post_unjoined_TypeError_witness :
  TypeError "feed" ≠ ChannelNotJoined "lobby"
  ∧ (∀ message u, message ≠ "" → _userProfile (node alice_online) = Some u →
       let p := (send "lobby" message alice_online).1 in
       let w1 := (send "lobby" message alice_online).2 in
       promises w1 !! p = Some (Rejected (TypeError "feed"))
       ∧ requests w1 = requests alice_online)
  ∧ (∀ source path cid,
       present (filename source) || present (directory source) = true →
       let p := (addFile "lobby" (Some source) alice_online).1 in
       let w1 := (addFile "lobby" (Some source) alice_online).2 in
       let w2 := complete (length (requests alice_online))
                   (Success (AAdded path cid)) w1 in
       promises w2 !! p = Some (Rejected (TypeError "feed"))
       ∧ requests w2 = requests alice_online
                       ++ [(adder_request (bound_adder source), None)]).
Proof.
  apply (post_unjoined_TypeError alice_online "lobby");
    [discriminate | reflexivity | reflexivity].
Defined.

(** The same on a concrete run, next to a channel whose feed is gone,
    for which the "Have not joined" error is raised. *)
Example send_to_unjoined_channel :
  let w := run [do_send "lobby" "hello"] alice_online in
  promises w !! 1 = Some (Rejected (TypeError "feed")) ∧ appended w = [].
Proof. vm_compute. done. Qed.

Example send_to_channel_without_feed :
  let w0 := with_node (set_channels {[ "lobby" := {| channelName := "lobby";
                                                     feed := None |} ]})
              alice_online in
  let w := run [do_send "lobby" "hello"] w0 in
  promises w !! 1 = Some (Rejected (ChannelNotJoined "lobby")) ∧ appended w = [].
Proof. vm_compute. done. Qed.

(** ** Adding files *)

Lemma file_post_type o ts source a name size path cid :
  meta (file_post o ts source a name size path cid) !! "type" =
    Some (match source_meta source ≫= (.!! "type") with
          | Some v => v
          | None => VStr (if isDirectory a path then "directory" else "file")
          end).
Proof.
  unfold file_post; cbn [meta]. rewrite !lookup_union.
  rewrite lookup_insert_ne by done. rewrite lookup_singleton_ne by done.
  rewrite lookup_insert_ne by done. rewrite lookup_insert_eq.
  destruct (source_meta source) as [m|]; cbn [default from_option mbind option_bind id].
  - by destruct (m !! "type").
  - by rewrite lookup_empty.
Qed.

Lemma isDirectory_bound_adder source path :
  (if isDirectory (bound_adder source) path then "directory" else "file") =
  (if buffer_source source then "file"
   else if String.eqb (pop (split "/" path)) (expected_name source)
        then "file" else "directory").
Proof.
  unfold bound_adder, isDirectory.
  destruct (buffer_source source); [done|].
  by destruct (present (directory source)); destruct (String.eqb _ _).
Qed.

(** C8: the post [addFile] appends carries the type the caller's [meta]
    names, when it names one; otherwise "file" for a buffer source, and
    for a path source "file" when the trailing segment of the path of the
    entry the provider returned is the expected name, "directory" when it
    is not. *)
Theorem addFile_meta_type w c source ch f path cid :
  c ≠ "" →
  present (filename source) || present (directory source) = true →
  _channels (node w) !! c = Some ch → feed ch = Some f →
  let p := (addFile c (Some source) w).1 in
  let w2 := complete (length (requests w)) (Success (AAdded path cid))
              (addFile c (Some source) w).2 in
  ∃ data,
    requests w2 = requests w ++ [(adder_request (bound_adder source), None);
                                 (feed_add f data, Some (post_k p))]
    ∧ content data = cid
    ∧ meta data !! "type" =
        Some (match source_meta source ≫= (.!! "type") with
              | Some v => v
              | None =>
                  VStr (if buffer_source source then "file"
                        else if String.eqb (pop (split "/" path)) (expected_name source)
                             then "file" else "directory")
              end).
Proof.
  intros Hc Hsrc Hch Hf. cbn zeta.
  rewrite (addFile_call w c source) by done. cbn [fst snd].
  rewrite complete_await by done.
  cbn [resume addFile_resume]. unfold return_postMessage, _postMessage.
  rewrite (_getChannelFeed_joined c _ ch f) by done.
  world w. prims.
  eexists. split; [by rewrite <- app_assoc|]. split; [done|].
  rewrite <- isDirectory_bound_adder. apply file_post_type.
Qed.

Lemma addFile_meta_type_witness :
  let w := alice_in_general in
  let source := plain_path_source in
  let p := (addFile "general" (Some source) w).1 in
  let w2 := complete (length (requests w)) (Success (AAdded "a.txt" "QmA"))
              (addFile "general" (Some source) w).2 in
  ∃ data,
    requests w2 = requests w ++ [(adder_request (bound_adder source), None);
                                 (feed_add general_feed data, Some (post_k p))]
    ∧ content data = "QmA"
    ∧ meta data !! "type" =
        Some (match source_meta source ≫= (.!! "type") with
              | Some v => v
              | None =>
                  VStr (if buffer_source source then "file"
                        else if String.eqb (pop (split "/" "a.txt")) (expected_name source)
                             then "file" else "directory")
              end).
Proof.
  apply (addFile_meta_type alice_in_general "general" plain_path_source
           general general_feed "a.txt" "QmA");
    [discriminate | reflexivity | reflexivity | reflexivity].
Defined.

(** C8, as stated, fails: a buffer source whose [meta] says
    [type: "directory"] is posted as a directory. *)
Lemma buffer_source_posted_as_directory :
  let w := run [do_addFile "general" (Some typed_buffer_source);
                do_complete 2 (Success (AAdded "a.txt" "QmA"))]
               alice_in_general in
  buffer_source typed_buffer_source = true
  ∧ (λ data, meta data !! "type") <$> appended w = [Some (VStr "directory")].
Proof. vm_compute. done. Qed.

Example path_source_file_and_directory :
  let posted path :=
    (λ data, meta data !! "type") <$>
      appended (run [do_addFile "general" (Some plain_path_source);
                     do_complete 2 (Success (AAdded path "QmA"))]
                    alice_in_general) in
  posted "a.txt" = [Some (VStr "file")]
  ∧ posted "docs" = [Some (VStr "directory")].
Proof. vm_compute. done. Qed.

(** ** Joining a channel *)


Lemma join_queued w c p options :
  c ≠ "" → inherited c = false → _channels (node w) !! c = None →
  _joiningQueue (node w) !! c = Some p →
  join c options w = (p, w).
Proof.
  intros Hc Hi Hch Hq. apply String.eqb_neq in Hc. unfold join.
  by rewrite Hc, Hch, Hi, Hq.
Qed.

Lemma join_all_queued w c p optionss :
  c ≠ "" → inherited c = false → _channels (node w) !! c = None →
  _joiningQueue (node w) !! c = Some p →
  join_all c optionss w = (replicate (length optionss) p, w).
Proof.
  intros Hc Hi Hch Hq. induction optionss as [|o os IH]; [done|].
  cbn [join_all]. rewrite (join_queued w c p) by done. by rewrite IH.
Qed.

(** The world after the first [join] of a name, on a connected node. *)
Lemma join_first w c db options :
  c ≠ "" → inherited c = false → _orbitdb (node w) = Some db →
  _channels (node w) !! c = None → _joiningQueue (node w) !! c = None →
  join c options w =
    (length (promises w),
     with_node (λ o, set_joiningQueue (<[c := length (promises w)]> (_joiningQueue o)) o)
       (await (orbitdb_log db c (default ∅ options ∪ default_channelOptions))
              (join_k c (length (promises w)))
              (new_promise Pending w).2)).
Proof.
  intros Hc Hi Hdb Hch Hq. apply String.eqb_neq in Hc. unfold join.
  rewrite Hc, Hch, Hi, Hq. cbn [new_promise node]. by rewrite Hdb.
Qed.

(** [join] of a name that [_channels] inherits and does not hold itself:
    a promise already fulfilled with the inherited member, and nothing
    else. *)
Lemma join_inherited w c options :
  inherited c = true → _channels (node w) !! c = None →
  join c options w = new_promise (Fulfilled (AMember c)) w.
Proof.
  intros Hi Hch. unfold join. rewrite Hch, Hi.
  destruct (String.eqb_spec c "") as [->|]; [by vm_compute in Hi | done].
Qed.

Lemma join_resume_success c p f w :
  let ch := {| channelName := c; feed := Some f |} in
  join_resume c p (Success (AFeed f)) w =
    Some (resolve p (AChannel ch)
            (with_node (λ o, set_joiningQueue (delete c (_joiningQueue o)) o)
               (emit (joined c ch)
                  (with_node (λ o, set_channels (<[c := ch]> (_channels o)) o) w)))).
Proof.
  unfold join_resume.
  cbn [with_node emit node set_channels set_joiningQueue _channels].
  rewrite lookup_insert_eq.
  cbn [with_node emit node set_channels set_joiningQueue _channels].
  by rewrite lookup_insert_eq.
Qed.




(** ** What no later activity undoes *)

Lemma pending_snoc (rqs : list (request * option cont)) rq k :
  omap snd (rqs ++ [(rq, Some k)]) = omap snd rqs ++ [k].
Proof. by rewrite omap_app. Qed.

Lemma pending_snoc_answered (rqs : list (request * option cont)) rq :
  omap snd (rqs ++ [(rq, None)]) = omap snd rqs.
Proof. rewrite omap_app. apply app_nil_r. Qed.

Lemma pending_answered (P : cont → Prop) i (rqs : list (request * option cont)) :
  Forall P (omap snd rqs) →
  Forall P (omap snd (alter (λ e, (e.1, None)) i rqs)).
Proof.
  revert i; induction rqs as [|[rq [k|]] rqs IH]; intros [|i]; cbn; try done.
  - by inversion_clear 1.
  - inversion_clear 1. constructor; [done | by apply IH].
  - apply IH.
Qed.

Lemma pending_lookup (P : cont → Prop) i rq k (rqs : list (request * option cont)) :
  Forall P (omap snd rqs) → rqs !! i = Some (rq, Some k) → P k.
Proof.
  intros HP Hi. rewrite Forall_forall in HP. apply HP.
  apply list_elem_of_omap. exists (rq, Some k). split; [|done].
  by eapply list_elem_of_lookup_2.
Qed.

Lemma joins_false c c0 q : joins c (join_k c0 q) = false ↔ c0 ≠ c.
Proof. cbn. apply String.eqb_neq. Qed.

(** Closes the goals the cases of a step leave. *)
Ltac settled :=
  rewrite ?pending_snoc; fields;
  repeat match goal with
  | |- _ ∧ _ => split
  | |- Forall _ (_ ++ _) => apply Forall_app; split
  | |- Forall _ [] => constructor
  | |- Forall _ (_ :: _) => constructor
  | |- Forall _ (omap snd (alter _ _ _)) => apply pending_answered
  | |- joins _ (join_k _ _) = false => apply joins_false
  | |- <[_ := _]> _ !! _ = _ => rewrite lookup_insert_ne by congruence
  | |- delete _ _ !! _ = None => apply lookup_delete_None; right
  | |- delete _ _ !! _ = _ => rewrite lookup_delete_ne by congruence
  | |- ∅ !! _ = None => apply lookup_empty
  end;
  try done; try congruence.

Lemma wedged_call c p w a :
  (∀ i r, a ≠ do_complete i r) → wedged c p w → wedged c p (step w a).
Proof.
  intros Ha (Hq & Hch & Hk). unfold wedged, pending in *.
  destruct a; cbn [step]; try (by destruct (Ha i r)); clear Ha; world w.
  all: each_call settled.
Qed.

Lemma wedged_complete c p w i r : wedged c p w → wedged c p (complete i r w).
Proof.
  intros (Hq & Hch & Hk). unfold complete.
  destruct (requests w !! i) as [[rq [k|]]|] eqn:Hi; try done.
  assert (joins c k = false) as Hjk
    by exact (pending_lookup (λ k, joins c k = false) i rq k (requests w) Hk Hi).
  unfold wedged, pending in *. world w.
  destruct k, r as [[]|]; cbn [resume]; try done.
  all: try apply joins_false in Hjk.
  all: each_resume settled.
Qed.

Lemma wedged_step c p w a : wedged c p w → wedged c p (step w a).
Proof.
  destruct a as [| | | | | |i r| |];
    try (apply wedged_call; discriminate). apply wedged_complete.
Qed.

Lemma wedged_run c p acts w : wedged c p w → wedged c p (run acts w).
Proof.
  revert w; induction acts as [|a acts IH]; intros w Hw; [done|].
  cbn. apply IH. by apply wedged_step.
Qed.

(** Closes goals on the state of a promise that a step must not touch. *)
Ltac kept :=
  repeat match goal with
  | |- _ ∧ _ => split
  | H : ?ps !! ?p = Some _ |- (?ps ++ _) !! ?p = _ =>
      rewrite lookup_app_l by (by eapply lookup_lt_Some)
  | H : ?p < length ?ps |- (?ps ++ _) !! ?p = _ =>
      rewrite lookup_app_l by done
  | |- <[?q := _]> ?ps !! ?p = _ =>
      destruct (decide (q = p)) as [->|];
      [ exfalso; congruence | rewrite list_lookup_insert_ne by done ]
  end;
  try done; try congruence.

(** A call of a method settles no promise made before it. *)
Lemma promises_call p w a :
  (∀ i r, a ≠ do_complete i r) → p < length (promises w) →
  promises (step w a) !! p = promises w !! p.
Proof.
  intros Ha Hp.
  destruct a; cbn [step]; try (by destruct (Ha i r)); clear Ha; world w.
  all: each_call kept.
Qed.

(** An answer settles no promise but the one its continuation holds. *)
Lemma promises_complete p w i r :
  Forall (λ k, cont_promise k ≠ Some p) (pending w) →
  promises (complete i r w) !! p = promises w !! p.
Proof.
  intros Hk. unfold complete.
  destruct (requests w !! i) as [[rq [k|]]|] eqn:Hi; try done.
  assert (cont_promise k ≠ Some p) as Hkp
    by exact (pending_lookup (λ k, cont_promise k ≠ Some p) i rq k (requests w) Hk Hi).
  clear Hk Hi. world w.
  destruct k, r as [[]|]; cbn [resume cont_promise] in *; try done.
  all: each_resume kept.
Qed.



(** Closes goals on the continuations in flight after a step. *)
Ltac in_flight :=
  rewrite ?pending_snoc; fields;
  repeat match goal with
  | |- Forall _ (_ ++ _) => apply Forall_app; split
  | |- Forall _ [] => constructor
  | |- Forall _ (_ :: _) => constructor
  | |- Forall _ (omap snd (alter _ _ _)) => apply pending_answered
  | |- cont_promise _ ≠ Some _ => cbn [cont_promise]
  | H : ?p < length ?ps |- Some (length ?ps) ≠ Some ?p => intros [= <-]; lia
  end;
  try done; try congruence.

Lemma pending_call p w a :
  (∀ i r, a ≠ do_complete i r) → p < length (promises w) →
  Forall (λ k, cont_promise k ≠ Some p) (pending w) →
  Forall (λ k, cont_promise k ≠ Some p) (pending (step w a)).
Proof.
  intros Ha Hp Hk. unfold pending in *.
  destruct a; cbn [step]; try (by destruct (Ha i r)); clear Ha; world w.
  all: each_call in_flight.
Qed.

Lemma pending_complete p w i r :
  Forall (λ k, cont_promise k ≠ Some p) (pending w) →
  Forall (λ k, cont_promise k ≠ Some p) (pending (complete i r w)).
Proof.
  intros Hk. unfold complete.
  destruct (requests w !! i) as [[rq [k|]]|] eqn:Hi; try done.
  assert (cont_promise k ≠ Some p) as Hkp
    by exact (pending_lookup (λ k, cont_promise k ≠ Some p) i rq k (requests w) Hk Hi).
  clear Hi. unfold pending in *. world w.
  destruct k, r as [[]|]; cbn [resume cont_promise] in *; try done.
  all: each_resume in_flight.
Qed.

Lemma orphaned_step p w a : orphaned p w → orphaned p (step w a).
Proof.
  intros [Hp Hk]. pose proof (lookup_lt_Some _ _ _ Hp) as Hlt.
  destruct a as [| | | | | |i r| |].
  all: try (split; [rewrite promises_call; [done | discriminate | done]
                   | apply pending_call; [discriminate | done | done]]).
  cbn [step]. split; [by rewrite promises_complete | by apply pending_complete].
Qed.

Lemma orphaned_run p acts w : orphaned p w → orphaned p (run acts w).
Proof.
  revert w; induction acts as [|a acts IH]; intros w Hw; [done|].
  cbn. apply IH. by apply orphaned_step.
Qed.

(** ** Invariants of the reachable worlds *)

Lemma run_snoc acts a w : run (acts ++ [a]) w = step (run acts w) a.
Proof. unfold run. by rewrite foldl_app. Qed.

Lemma reachable_ind_step (P : World → Prop) :
  (∀ options, P (new_Orbit options)) →
  (∀ w a, P w → P (step w a)) →
  ∀ w, reachable w → P w.
Proof.
  intros Hinit Hstep w (options & acts & ->).
  induction acts as [|a acts IH] using rev_ind; [apply Hinit|].
  rewrite run_snoc. by apply Hstep.
Qed.

Lemma reachable_step w a : reachable w → reachable (step w a).
Proof.
  intros (options & acts & ->). exists options, (acts ++ [a]). by rewrite run_snoc.
Qed.

(** Closes goals on the promises held by the continuations in flight. *)
Ltac known :=
  rewrite ?pending_snoc; fields;
  repeat match goal with
  | |- Forall _ (_ ++ _) => apply Forall_app; split
  | |- Forall _ [] => constructor
  | |- Forall _ [_] =>
      constructor; [cbn [cont_promise]; intros ? [= <-] | constructor]
  | |- Forall _ (omap snd (alter _ _ _)) => apply pending_answered
  | H : Forall _ ?l |- Forall _ ?l =>
      refine (Forall_impl _ _ _ H _);
      let Hk := fresh in let Hq := fresh in
      intros ? Hk ? Hq; specialize (Hk _ Hq)
  end;
  rewrite ?length_app, ?length_insert; cbn [length]; try done; try lia.

Lemma promises_known_step w a : promises_known w → promises_known (step w a).
Proof.
  unfold promises_known, pending. intros Hk.
  destruct a as [| | | | | |i r| |]; cbn [step].
  7:{ unfold complete.
      destruct (requests w !! i) as [[rq [k|]]|] eqn:Hi; try done.
      pose proof (pending_lookup _ i rq k (requests w) Hk Hi) as Hkp.
      cbn beta in Hkp. clear Hi. world w.
      destruct k, r as [[]|]; cbn [resume cont_promise] in *; try done.
      all: try specialize (Hkp _ eq_refl).
      all: each_resume known. }
  all: world w; each_call known.
Qed.

Lemma joining_answered i rq k (rqs : list (request * option cont)) :
  rqs !! i = Some (rq, Some k) →
  ∃ before after,
    omap join_slot (omap snd rqs) = before ++ option_list (join_slot k) ++ after
    ∧ omap join_slot (omap snd (alter (λ e, (e.1, None)) i rqs)) = before ++ after.
Proof.
  revert i; induction rqs as [|[rq' k'] rqs IH]; intros [|i] Hi; try done.
  - injection Hi as -> ->. exists [], (omap join_slot (omap snd rqs)).
    split; [|done]. cbn. by destruct (join_slot k).
  - destruct (IH i Hi) as (before & after & Hb & Ha).
    destruct k' as [k'|]; cbn.
    + destruct (join_slot k') as [c'|] eqn:Hc'.
      * exists (c' :: before), after. cbn. by rewrite Hb, Ha.
      * exists before, after. by rewrite Hb, Ha.
    + exists before, after. by rewrite Hb, Ha.
Qed.

Lemma joining_answered_other i rq k (rqs : list (request * option cont)) :
  rqs !! i = Some (rq, Some k) → join_slot k = None →
  omap join_slot (omap snd (alter (λ e, (e.1, None)) i rqs))
  = omap join_slot (omap snd rqs).
Proof.
  intros Hi Hk. destruct (joining_answered i rq k rqs Hi) as (b & a & Hb & Ha).
  by rewrite Ha, Hb, Hk.
Qed.

Lemma joining_snoc (rqs : list (request * option cont)) rq k :
  omap join_slot (omap snd (rqs ++ [(rq, Some k)]))
  = omap join_slot (omap snd rqs) ++ option_list (join_slot k).
Proof. rewrite pending_snoc, omap_app. cbn. by destruct (join_slot k). Qed.

(** A step that neither touches the joining queue nor opens or answers
    the open of a log keeps the queue sound. *)
Lemma queue_sound_frame w w' :
  joining w' = joining w →
  _joiningQueue (node w') = _joiningQueue (node w) →
  queue_sound w → queue_sound w'.
Proof. unfold queue_sound. by intros -> ->. Qed.

(** Closes the side conditions of [queue_sound_frame]. *)
Ltac framed :=
  unfold joining, pending; prims;
  rewrite ?joining_snoc; cbn [join_slot option_list option_rect];
  rewrite ?app_nil_r; try done.

Lemma queue_sound_call w a :
  (∀ i r, a ≠ do_complete i r) → (∀ c o, a ≠ do_join c o) →
  queue_sound w → queue_sound (step w a).
Proof.
  intros Ha Hj. apply queue_sound_frame.
  all: destruct a as [v| |c0 o0|c0|c0 m|c0 src|i r|t|dt]; cbn [step];
    try (by destruct (Ha i r)); try (by destruct (Hj c0 o0));
    clear Ha Hj; world w.
  all: try (call; repeat case_match; prims; framed).
  all: try (unfold fire; repeat case_match; prims; framed).
  all: try (unfold advance; prims; framed).
Qed.

Lemma queue_sound_join w c o : queue_sound w → queue_sound (join c o w).2.
Proof.
  intros [Hnd Hq]. unfold join.
  destruct (String.eqb c ""); [done|].
  destruct (_channels (node w) !! c); [done|].
  destruct (inherited c); [done|].
  destruct (_joiningQueue (node w) !! c) as [p|] eqn:Hc; [done|].
  assert (c ∉ joining w) as Hnew.
  { intros Hin. destruct (Hq c Hin) as [p Hp]. congruence. }
  assert (∀ c', c' ∈ joining w ++ [c] →
            is_Some (<[c := length (promises w)]> (_joiningQueue (node w)) !! c'))
    as Hq'.
  { intros c' [Hin | ->%list_elem_of_singleton]%elem_of_app.
    - apply lookup_insert_is_Some'. right. by apply Hq.
    - apply lookup_insert_is_Some'. by left. }
  unfold queue_sound, joining, pending in *. world w.
  destruct _orbitdb0; prims; rewrite ?joining_snoc; cbn [join_slot option_list option_rect].
  - split; [|done]. apply NoDup_app. split; [done|].
    split; [| apply NoDup_singleton].
    intros c' Hin ->%list_elem_of_singleton. done.
  - split; [done|]. intros c' Hin. apply Hq', elem_of_app. by left.
Qed.

(** Resuming a method other than [join] neither touches the joining
    queue nor opens a log. *)
Lemma resume_frame k r w w' :
  join_slot k = None → resume k r w = Some w' →
  joining w' = joining w ∧ _joiningQueue (node w') = _joiningQueue (node w).
Proof.
  intros Hk Hr.
  destruct k, r as [[]|]; try done; cbn [resume] in Hr.
  all: unfold leave_resume, disconnect_resume, connect_resume, post_resume,
    addFile_resume, update_resume, _updateSwarmPeers in Hr.
  all: repeat case_match; simplify_eq.
  all: world w; repeat (prims; case_match); prims; framed.
Qed.

Lemma queue_sound_complete w i r : queue_sound w → queue_sound (complete i r w).
Proof.
  intros Hw. pose proof Hw as [Hnd Hq]. unfold complete.
  destruct (requests w !! i) as [[rq [k|]]|] eqn:Hi; try done.
  destruct (joining_answered i rq k (requests w) Hi) as (before & after & Hb & Ha).
  destruct (join_slot k) as [c|] eqn:Hk.
  - destruct k; try done. injection Hk as ->. cbn [resume option_list option_rect] in *.
    unfold queue_sound, joining, pending in Hnd, Hq |- *. rewrite Hb in Hnd, Hq.
    apply NoDup_app in Hnd as (Hndb & Hsep & Hnda).
    apply NoDup_cons in Hnda as [Hca Hnda].
    assert (c ∉ before) as Hcb.
    { intros Hin. apply (Hsep c Hin). by left. }
    assert (NoDup (before ++ after)) as Hnd'.
    { apply NoDup_app. split; [done|]. split; [|done].
      intros c' Hin Hin'. apply (Hsep c' Hin). by right. }
    destruct r as [[]|]; unfold join_resume; try done; clear Hw.
    + world w. repeat (prims; rewrite ?lookup_insert_eq). rewrite Ha.
      split; [done|]. intros c' Hin.
      assert (c' ≠ c) by (intros ->; apply elem_of_app in Hin as [|]; done).
      rewrite lookup_delete_ne by done. apply Hq.
      apply elem_of_app in Hin as [|]; apply elem_of_app; [by left|right; by right].
    + world w. prims. rewrite Ha. split; [done|]. intros c' Hin. apply Hq.
      apply elem_of_app in Hin as [|]; apply elem_of_app; [by left|right; by right].
  - assert (joining (answered i w) = joining w) as Hans.
    { unfold joining, pending. cbn [answered requests].
      by apply (joining_answered_other i rq k). }
    destruct (resume k r (answered i w)) as [w'|] eqn:Hr; [|done].
    cbn [default from_option id].
    destruct (resume_frame k r _ _ Hk Hr) as [Hj Hjq].
    apply (queue_sound_frame w); [by rewrite Hj | by rewrite Hjq | done].
Qed.

Lemma queue_sound_step w a : queue_sound w → queue_sound (step w a).
Proof.
  destruct a as [v| |c0 o0|c0|c0 m|c0 src|i r|t|dt];
    try (apply queue_sound_call; discriminate).
  - apply queue_sound_join.
  - apply queue_sound_complete.
Qed.

Lemma reachable_queue_sound w : reachable w → queue_sound w.
Proof.
  apply reachable_ind_step; [|apply queue_sound_step].
  intros options. split; [constructor | by intros c Hc%elem_of_nil].
Qed.

Lemma reachable_promises_known w : reachable w → promises_known w.
Proof.
  apply reachable_ind_step; [|apply promises_known_step].
  intros options. constructor.
Qed.

(** In a reachable world, a channel with no entry in the joining queue has
    no open of its log in flight. *)
Lemma reachable_not_joining w c :
  reachable w → _joiningQueue (node w) !! c = None →
  Forall (λ k, joins c k = false) (pending w).
Proof.
  intros [_ Hq]%reachable_queue_sound Hc. apply Forall_forall. intros k Hk.
  destruct (joins c k) eqn:Hj; [|done]. exfalso.
  destruct k; try done. cbn in Hj. apply String.eqb_eq in Hj as ->.
  destruct (Hq c) as [p' Hp]; [|congruence].
  unfold joining. apply list_elem_of_omap. by exists (join_k c p).
Qed.

(** In a reachable world, no suspended method holds the promise that will
    be made next. *)
Lemma reachable_next_promise w :
  reachable w →
  Forall (λ k, cont_promise k ≠ Some (length (promises w))) (pending w).
Proof.
  intros Hk%reachable_promises_known.
  refine (Forall_impl _ _ _ Hk _). intros k Hlt Heq. specialize (Hlt _ Heq). lia.
Qed.

Lemma alice_online_reachable : reachable alice_online.
Proof. by eexists None, _. Qed.

(** A step that touches neither the provider handle, nor the timer
    handle, nor the timers keeps polling sound. *)
Lemma polling_sound_frame w w' :
  _orbitdb (node w') = _orbitdb (node w) →
  _pollPeersTimer (node w') = _pollPeersTimer (node w) →
  intervals w' = intervals w →
  polling_sound w → polling_sound w'.
Proof. unfold polling_sound. by intros -> -> ->. Qed.

Lemma polling_sound_call w a :
  (∀ i r, a ≠ do_complete i r) → polling_sound w → polling_sound (step w a).
Proof.
  intros Ha. apply polling_sound_frame.
  all: destruct a as [v| |c0 o0|c0|c0 m|c0 src|i r|t|dt]; cbn [step];
    try (by destruct (Ha i r)); clear Ha; world w.
  all: try (call; repeat case_match; prims; done).
  all: try (unfold fire; repeat case_match; prims; done).
  all: try (unfold advance; prims; done).
Qed.

Lemma polling_sound_complete w i r :
  polling_sound w → polling_sound (complete i r w).
Proof.
  intros Hw. pose proof Hw as [Hdb Hrun]. unfold complete.
  destruct (requests w !! i) as [[rq [k|]]|] eqn:Hi; try done. clear Hi.
  destruct k, r as [[]|]; cbn [resume]; try done.
  all: unfold leave_resume, disconnect_resume, connect_resume, join_resume,
    post_resume, addFile_resume, update_resume, _updateSwarmPeers.
  all: try (apply (polling_sound_frame w); [..|done]; clear Hw Hdb Hrun;
            world w; repeat (prims; case_match); prims; done).
  all: clear Hw; unfold polling_sound in *; world w.
  1:{ (* connect resumes: the timer starts unless a handle is set *)
    destruct _pollPeersTimer0 as [t0|]; repeat (prims; case_match); prims.
    all: split; [eauto|]; try done.
    all: intros t Ht; destruct (decide (t < length intervals0)) as [Hlt|Hge].
    all: try (rewrite lookup_app_l in Ht by done; by specialize (Hrun t Ht)).
    all: rewrite lookup_app_r in Ht by lia.
    all: destruct (t - length intervals0) as [|n] eqn:Hn; [f_equal; lia | done]. }
  (* disconnect resumes: the timer the handle names is stopped *)
  all: destruct _pollPeersTimer0 as [t0|]; prims.
  all: split; [by intros []|]; try done.
  all: intros t Ht; destruct (decide (t0 = t)) as [->|Hne]; [done|].
  all: rewrite list_lookup_insert_ne in Ht by done; by apply Hrun.
Qed.

Lemma polling_sound_step w a : polling_sound w → polling_sound (step w a).
Proof.
  destruct a as [v| |c0 o0|c0|c0 m|c0 src|i r|t|dt];
    try (apply polling_sound_call; discriminate).
  apply polling_sound_complete.
Qed.

Lemma reachable_polling_sound w : reachable w → polling_sound w.
Proof.
  apply reachable_ind_step; [|apply polling_sound_step].
  intros options. split; [by intros [] | done].
Qed.

(** ** Setting one request aside *)

(** The steps that do not answer request [i] do not look at it: they
    commute with setting it aside. *)
Lemma answered_answered i j w : answered i (answered j w) = answered j (answered i w).
Proof.
  unfold answered; cbn [requests node emitted promises intervals clock].
  f_equal. destruct (decide (i = j)) as [->|Hne]; [done|].
  by apply list_alter_alter_ne.
Qed.

(** Closes the equations between worlds that differ in the place where a
    request was set aside. *)
Ltac aside :=
  simplify_eq; cbn [fmap option_fmap option_map]; prims; try done;
  unfold answered, await, with_node, emit, resolve, reject, settle,
    new_promise, setInterval, clearInterval; fields;
  repeat match goal with
  | |- Some _ = Some _ => f_equal
  | |- (_, _) = (_, _) => f_equal
  | |- Build_World _ _ _ _ _ _ = Build_World _ _ _ _ _ _ => f_equal
  end;
  try done; try (by rewrite alter_app_l).

Lemma resume_answered i k r w :
  i < length (requests w) →
  resume k r (answered i w) = answered i <$> resume k r w.
Proof.
  intros Hi. world w.
  destruct k, r as [[]|]; cbn [resume fmap option_fmap option_map]; try done.
  all: each_resume aside.
Qed.

Lemma call_answered i w a :
  i < length (requests w) → (∀ j r, a ≠ do_complete j r) →
  step (answered i w) a = answered i (step w a).
Proof.
  intros Hi Ha.
  destruct a; cbn [step]; try (by destruct (Ha i0 r)); clear Ha; world w.
  all: each_call aside.
Qed.

Lemma complete_answered i j r w :
  i < length (requests w) → i ≠ j →
  complete j r (answered i w) = answered i (complete j r w).
Proof.
  intros Hi Hne. unfold complete. cbn [answered requests].
  rewrite list_lookup_alter_ne by done.
  destruct (requests w !! j) as [[rq [k|]]|] eqn:Hj; try done.
  change (Build_World ?n ?e ?p (alter _ i (requests w)) ?t ?c) with (answered i w).
  rewrite answered_answered, resume_answered.
  - by destruct (resume k r (answered j w)).
  - cbn [answered requests]. by rewrite length_alter.
Qed.

(** A step other than the answer to request [i] commutes with setting
    request [i] aside. *)
Lemma step_answered i w a :
  i < length (requests w) → (∀ r, a ≠ do_complete i r) →
  step (answered i w) a = answered i (step w a).
Proof.
  intros Hi Ha. destruct a as [| | | | | |j r| |];
    try (apply call_answered; [done | discriminate]).
  cbn [step]. apply complete_answered; [done|]. intros ->. by apply (Ha r).
Qed.

(** A request in flight stays as it is until it is answered. *)
Ltac still :=
  simplify_eq; prims;
  repeat match goal with
  | H : ?l !! ?i = Some _ |- (?l ++ _) !! ?i = _ =>
      rewrite lookup_app_l by (by eapply lookup_lt_Some)
  | H : ?l !! ?i = Some _ |- (alter _ _ ?l ++ _) !! ?i = _ =>
      rewrite lookup_app_l by (rewrite length_alter; by eapply lookup_lt_Some)
  | |- alter _ _ _ !! _ = _ => rewrite list_lookup_alter_ne by done
  end;
  try done.

Lemma in_flight_step i rq k w a :
  requests w !! i = Some (rq, Some k) → (∀ r, a ≠ do_complete i r) →
  requests (step w a) !! i = Some (rq, Some k).
Proof.
  intros Hi Ha. destruct a as [| | | | | |j r| |]; cbn [step].
  7:{ assert (j ≠ i) as Hne by (intros ->; by apply (Ha r)).
      unfold complete.
      destruct (requests w !! j) as [[rq' [k'|]]|] eqn:Hj; try done.
      clear Hj Ha. world w.
      destruct k', r as [[]|]; cbn [resume]; try done.
      all: each_resume still. }
  all: clear Ha; world w; each_call still.
Qed.

Lemma opening_step c p i w a :
  (∀ r, a ≠ do_complete i r) → opening c p i w → opening c p i (step w a).
Proof.
  intros Ha ((rq & Hi) & Hw & Ho).
  assert (i < length (requests w)) as Hlt by by eapply lookup_lt_Some.
  split; [|split].
  - exists rq. by apply in_flight_step.
  - rewrite <- step_answered by done. by apply wedged_step.
  - rewrite <- step_answered by done. by apply orphaned_step.
Qed.

Lemma opening_run c p i acts w :
  Forall (λ a, ∀ r, a ≠ do_complete i r) acts →
  opening c p i w → opening c p i (run acts w).
Proof.
  intros Hacts. revert w. induction Hacts as [|a acts Ha _ IH]; intros w Hw; [done|].
  cbn. apply IH. by apply opening_step.
Qed.

(** ** What an entry stuck in the queue rules out *)

Lemma log_opens_masked c i (rqs : list (request * option cont)) :
  length (filter (λ e, is_log_open c e = true) (alter (λ e, (e.1, None)) i rqs))
  = length (filter (λ e, is_log_open c e = true) rqs).
Proof.
  revert i; induction rqs as [|[rq k] rqs IH]; intros [|i]; try done.
  - cbn [alter list_alter]. rewrite !filter_cons. unfold is_log_open at 1 3. cbn [fst].
    by destruct (decide _).
  - cbn [alter list_alter]. rewrite !filter_cons.
    destruct (decide _); cbn [length]; by rewrite (IH i).
Qed.

Lemma log_opens_answered c i w : log_opens c (answered i w) = log_opens c w.
Proof. apply log_opens_masked. Qed.

Lemma count_snoc {A} (P : A → Prop) `{!∀ x, Decision (P x)} (l : list A) (x : A) :
  ¬ P x → length (filter P (l ++ [x])) = length (filter P l).
Proof.
  intros Hx. rewrite filter_app, length_app, filter_cons, filter_nil.
  rewrite decide_False by done. cbn. lia.
Qed.

(** Closes goals on the number of opens and of [joined] notifications. *)
Ltac counted :=
  simplify_eq; prims;
  repeat match goal with
  | |- length (filter _ (_ ++ [_])) = _ =>
      rewrite count_snoc;
      [| cbn; first [ discriminate
                    | rewrite not_true_iff_false; apply String.eqb_neq; congruence ] ]
  | |- length (filter _ (alter _ _ _)) = _ => rewrite log_opens_masked
  end;
  try done.

Lemma log_opens_step c p w a :
  wedged c p w → log_opens c (step w a) = log_opens c w.
Proof.
  intros (Hq & Hch & _). unfold log_opens.
  destruct a as [| | | | | |j r| |]; cbn [step].
  7:{ unfold complete.
      destruct (requests w !! j) as [[rq' [k'|]]|] eqn:Hj; try done.
      clear Hj. world w.
      destruct k', r as [[]|]; cbn [resume]; try done.
      all: each_resume counted. }
  all: world w; each_call counted.
Qed.

Lemma joined_count_step c p w a :
  wedged c p w → joined_count c (step w a) = joined_count c w.
Proof.
  intros (Hq & Hch & Hk). unfold joined_count.
  destruct a as [| | | | | |j r| |]; cbn [step].
  7:{ unfold complete.
      destruct (requests w !! j) as [[rq' [k'|]]|] eqn:Hj; try done.
      pose proof (pending_lookup _ j rq' k' (requests w) Hk Hj) as Hjk.
      cbn beta in Hjk. clear Hj Hk. world w.
      destruct k', r as [[]|]; cbn [resume]; try done.
      all: try apply joins_false in Hjk.
      all: each_resume counted. }
  all: clear Hk; world w; each_call counted.
Qed.

Lemma wedged_counts_run c p acts w :
  wedged c p w →
  log_opens c (run acts w) = log_opens c w
  ∧ joined_count c (run acts w) = joined_count c w.
Proof.
  revert w; induction acts as [|a acts IH]; intros w Hw; [done|].
  change (run (a :: acts) w) with (run acts (step w a)).
  destruct (IH (step w a)) as [-> ->]; [by apply wedged_step|].
  by rewrite (log_opens_step c p), (joined_count_step c p).
Qed.

Lemma opening_counts_step c p i w a :
  (∀ r, a ≠ do_complete i r) → opening c p i w →
  log_opens c (step w a) = log_opens c w
  ∧ joined_count c (step w a) = joined_count c w.
Proof.
  intros Ha ((rq & Hi) & Hw & _).
  assert (i < length (requests w)) as Hlt by by eapply lookup_lt_Some.
  split.
  - rewrite <- (log_opens_answered c i (step w a)), <- step_answered by done.
    by rewrite (log_opens_step c p), log_opens_answered.
  - change (joined_count c (step w a)) with (joined_count c (answered i (step w a))).
    rewrite <- step_answered by done. by rewrite (joined_count_step c p).
Qed.

Lemma opening_counts_run c p i acts w :
  Forall (λ a, ∀ r, a ≠ do_complete i r) acts → opening c p i w →
  log_opens c (run acts w) = log_opens c w
  ∧ joined_count c (run acts w) = joined_count c w.
Proof.
  intros Hacts. revert w. induction Hacts as [|a acts Ha _ IH]; intros w Hw; [done|].
  change (run (a :: acts) w) with (run acts (step w a)).
  destruct (IH (step w a)) as [-> ->]; [by apply opening_step|].
  by apply (opening_counts_step c p i).
Qed.

(** ** Joining under any interleaving *)

(** Join deduplication under any interleaving: after the first [join(c)]
    on a connected node, of a name as in C1 (not inherited, neither live
    nor queued), whatever happens before the provider answers the
    open (further [join(c)] calls, other calls, other answers, timers),
    every [join(c)] returns the promise of the first and opens nothing;
    when the log opens, that promise is fulfilled with the channel and
    [joined] is emitted, for the first time. *)
Theorem join_deduplicated_interleaved w c db o f acts :
  reachable w →
  c ≠ "" → inherited c = false → _orbitdb (node w) = Some db →
  _channels (node w) !! c = None → _joiningQueue (node w) !! c = None →
  Forall (λ a, ∀ r, a ≠ do_complete (length (requests w)) r) acts →
  let p := (join c o w).1 in
  let w' := run acts (join c o w).2 in
  let w2 := complete (length (requests w)) (Success (AFeed f)) w' in
  let ch := {| channelName := c; feed := Some f |} in
  (∀ o', join c o' w' = (p, w'))
  ∧ promises w' !! p = Some Pending
  ∧ log_opens c w' = S (log_opens c w)
  ∧ joined_count c w' = joined_count c w
  ∧ promises w2 !! p = Some (Fulfilled (AChannel ch))
  ∧ emitted w2 = emitted w' ++ [joined c ch]
  ∧ _channels (node w2) !! c = Some ch
  ∧ _joiningQueue (node w2) !! c = None.
Proof.
  intros Hw Hc Hinh Hdb Hch Hq Hacts p w' w2 ch.
  pose proof (reachable_not_joining w c Hw Hq) as Hk.
  pose proof (reachable_next_promise w Hw) as Hfresh.
  set (i := length (requests w)) in *.
  subst p w' w2. rewrite (join_first w c db o) in * by done. cbn [fst snd] in *.
  set (p := length (promises w)) in *.
  set (w1 := with_node _ _) in *.
  assert (opening c p i w1) as Hopen.
  { subst w1 p i. unfold opening, wedged, orphaned, pending in *. world w. prims.
    rewrite pending_snoc_answered, lookup_insert_eq. eauto 10. }
  assert (log_opens c w1 = S (log_opens c w) ∧ joined_count c w1 = joined_count c w)
    as [Hlog Hjoin].
  { subst w1 p i. unfold log_opens, joined_count. world w. prims.
    rewrite filter_app, length_app, filter_cons, filter_nil.
    rewrite decide_True by (cbn; apply String.eqb_refl).
    cbn. split; [lia | done]. }
  destruct (opening_counts_run c p i acts w1 Hacts Hopen) as [Hlog' Hjoin'].
  pose proof (opening_run c p i acts w1 Hacts Hopen)
    as ((rq & Hi) & (Hq' & Hch' & _) & (Hp' & _)).
  set (w' := run acts w1) in *.
  split; [intros o'; by apply join_queued|]. split; [done|].
  split; [by rewrite Hlog', Hlog|]. split; [by rewrite Hjoin', Hjoin|].
  unfold complete. rewrite Hi. cbn [resume].
  rewrite join_resume_success. cbn [default from_option id].
  cbn [answered node promises] in Hp', Hq', Hch'.
  unfold resolve, settle.
  cbn [promises emitted node with_node emit answered set_joiningQueue set_channels
       _channels _joiningQueue].
  rewrite Hp'.
  split; [apply list_lookup_insert_eq; by eapply lookup_lt_Some|].
  split; [done|]. split; [apply lookup_insert_eq | apply lookup_delete_eq].
Qed.

(** Three callers, a timer and a message in between; then the log opens. *)
Example join_interleaved_run :
  let w := run [do_join "general" None; do_fire 0; do_join "general" None;
                do_send "general" "too early"; do_join "general" None;
                do_complete 1 (Success (AFeed general_feed));
                do_join "general" None]
               alice_online in
  log_opens "general" w = 1 ∧ joined_count "general" w = 1
  ∧ promises w !! 1 = Some (Fulfilled (AChannel general))
  ∧ promises w !! 3 = Some (Fulfilled (AChannel general))
  ∧ _channels (node w) !! "general" = Some general.
Proof. vm_compute. done. Qed.

(** ** Joining while disconnected *)





(** On a concrete run of the case C10 describes: joined too early, then
    connected; the node is online and [join] still answers with the
    TypeError, without asking the provider for the log. *)
Example join_before_connect :
  let w := run [do_join "general" None;
                do_connect (VStr "alice");
                do_complete 0 (Success (ADb alice_db));
                do_join "general" None]
               (new_Orbit None) in
  online (node w) = true
  ∧ (join "general" None w).1 = 0
  ∧ promises w !! 0 = Some (Rejected (TypeError "log"))
  ∧ log_opens "general" w = 0.
Proof. vm_compute. done. Qed.

(** ** A log that cannot be opened *)

(** C3: in a reachable world with the node connected, for a name [c]
    that [_channels] does not inherit from [Object.prototype] and that is
    neither live nor in the joining queue, when the provider fails to open
    the log of [c], the promise every caller of [join(c)] holds stays
    pending and stays in the joining queue, whatever happens afterwards; a
    later [join(c)] returns it again, and the failed open remains the only
    one ever made for [c]. *)
Theorem join_failure_hangs w c db o os e :
  reachable w →
  c ≠ "" → inherited c = false → _orbitdb (node w) = Some db →
  _channels (node w) !! c = None → _joiningQueue (node w) !! c = None →
  let p := length (promises w) in
  let ps := (join_all c (o :: os) w).1 in
  let w1 := (join_all c (o :: os) w).2 in
  let w2 := complete (length (requests w)) (Failure e) w1 in
  ps = replicate (S (length os)) p
  ∧ ∀ acts o',
      let w3 := run acts w2 in
      promises w3 !! p = Some Pending
      ∧ _joiningQueue (node w3) !! c = Some p
      ∧ join c o' w3 = (p, w3)
      ∧ log_opens c w3 = S (log_opens c w)
      ∧ joined_count c w3 = joined_count c w.
Proof.
  intros Hw Hc Hinh Hdb Hch Hq p ps w1 w2.
  pose proof (reachable_not_joining w c Hw Hq) as Hk.
  pose proof (reachable_next_promise w Hw) as Hfresh.
  set (opn := orbitdb_log db c (default ∅ o ∪ default_channelOptions)).
  assert (join_all c (o :: os) w
          = (replicate (S (length os)) p,
             with_node (λ o, set_joiningQueue (<[c := p]> (_joiningQueue o)) o)
               (await opn (join_k c p) (new_promise Pending w).2))) as Hj.
  { cbn [join_all]. rewrite (join_first w c db o) by done.
    rewrite (join_all_queued _ c p os);
      [done | done | done | done | cbn; apply lookup_insert_eq]. }
  assert (w1 = with_node (λ o, set_joiningQueue (<[c := p]> (_joiningQueue o)) o)
                 (await opn (join_k c p) (new_promise Pending w).2)) as Hw1.
  { subst w1. by rewrite Hj. }
  assert (ps = replicate (S (length os)) p) as Hps.
  { subst ps. by rewrite Hj. }
  assert (w2 = answered (length (requests w)) w1) as Hw2.
  { subst w2. rewrite (complete_last _ _ w1 (requests w) opn (join_k c p));
      [done | by rewrite Hw1 | done]. }
  clearbody w2 w1 ps. clear Hj. split; [done|].
  assert (wedged c p w2) as Hwedged.
  { subst w2 w1. unfold wedged, pending in *. world w. prims.
    split; [apply lookup_insert_eq|]. split; [done|].
    by rewrite pending_snoc_answered. }
  assert (orphaned p w2) as Horphan.
  { subst w2 w1 p. unfold orphaned, pending in *. world w. prims.
    split; [done|]. by rewrite pending_snoc_answered. }
  assert (log_opens c w2 = S (log_opens c w) ∧ joined_count c w2 = joined_count c w)
    as [Hlog2 Hjoin2].
  { subst w2 w1 p opn. unfold log_opens, joined_count. world w. prims.
    rewrite filter_app, length_app, filter_cons, filter_nil.
    rewrite decide_True by (cbn; apply String.eqb_refl).
    cbn. split; [lia | done]. }
  intros acts o' w3.
  pose proof (wedged_run c p acts w2 Hwedged) as (Hq3 & Hch3 & _).
  pose proof (orphaned_run p acts w2 Horphan) as [Hp3 _].
  destruct (wedged_counts_run c p acts w2 Hwedged) as [Hlog Hjoin].
  split; [done|]. split; [done|]. split; [by apply join_queued|].
  fold w3 in Hlog, Hjoin. by rewrite Hlog, Hjoin.
Qed.

Lemma join_failure_hangs_witness :
  let w := alice_online in
  let c := "general" in
  let e := ProviderFailure "cannot open log" in
  let p := length (promises w) in
  let ps := (join_all c [None; None] w).1 in
  let w1 := (join_all c [None; None] w).2 in
  let w2 := complete (length (requests w)) (Failure e) w1 in
  ps = replicate 2 p
  ∧ ∀ acts o',
      let w3 := run acts w2 in
      promises w3 !! p = Some Pending
      ∧ _joiningQueue (node w3) !! c = Some p
      ∧ join c o' w3 = (p, w3)
      ∧ log_opens c w3 = S (log_opens c w)
      ∧ joined_count c w3 = joined_count c w.
Proof.
  apply (join_failure_hangs alice_online "general" alice_db None [None]
           (ProviderFailure "cannot open log"));
    [apply alice_online_reachable | discriminate | reflexivity | reflexivity | reflexivity
    | reflexivity].
Defined.

(** The same on a concrete run: two callers, the open fails, a third
    caller comes later.  All three hold promise 1, which is pending; the
    provider was asked once. *)
Example join_failure_run :
  let w := run [do_join "general" None; do_join "general" None;
                do_complete 1 (Failure (ProviderFailure "cannot open log"))]
               alice_online in
  (join "general" None w).1 = 1
  ∧ promises (join "general" None w).2 !! 1 = Some Pending
  ∧ _joiningQueue (node w) !! "general" = Some 1
  ∧ log_opens "general" (join "general" None w).2 = 1.
Proof. vm_compute. done. Qed.

(** ** Polling for peers across a reconnect *)

(** [disconnect] on a connected node, once the provider has disconnected. *)
Lemma disconnect_completes w db a :
  _orbitdb (node w) = Some db →
  let w' := complete (length (requests w)) (Success a) (disconnect w).2 in
  node w' = set_channels ∅ (set_userProfile None (set_orbitdb None
              (set_connecting false (node w))))
  ∧ intervals w' = match _pollPeersTimer (node w) with
                   | Some t => <[t := false]> (intervals w)
                   | None => intervals w
                   end
  ∧ emitted w' = emitted w ++ [disconnected]
  ∧ requests w' = requests w ++ [(orbitdb_disconnect db, None)]
  ∧ promises w' = promises w ++ [Fulfilled AUndefined].
Proof.
  intros Hdb. world w. subst. unfold disconnect. prims.
  unfold complete. prims. cbn [resume]. unfold disconnect_resume. prims.
  destruct _pollPeersTimer0; prims; done.
Qed.

(** [connect] on a disconnected node with an acceptable [username], once
    the provider has created the instance. *)
Lemma connect_completes w v db :
  _orbitdb (node w) = None → _connecting (node w) = false →
  (truthy v = true → is_string v = true) →
  let w' := complete (length (requests w)) (Success (ADb db)) (connect v w).2 in
  _orbitdb (node w') = Some db
  ∧ (∃ u, _userProfile (node w') = Some u
          ∧ emitted w' = emitted w ++ [connected (Some u)])
  ∧ _pollPeersTimer (node w') = Some (default (length (intervals w))
                                              (_pollPeersTimer (node w)))
  ∧ intervals w' = match _pollPeersTimer (node w) with
                   | Some _ => intervals w
                   | None => intervals w ++ [true]
                   end
  ∧ promises w' = promises w ++ [Fulfilled AUndefined].
Proof.
  intros Hdb Hc Hv. world w. subst. unfold connect. prims.
  assert (truthy v && negb (is_string v) = false) as ->.
  { destruct (truthy v); [|done]. by rewrite Hv. }
  destruct (truthy v); prims.
  all: unfold complete; prims; cbn [resume]; unfold connect_resume; prims.
  all: destruct _pollPeersTimer0; prims; eauto 10.
Qed.

(** C2: on a connected node, [disconnect] stops the poll timer, so that
    no timer runs, and keeps its handle in [_pollPeersTimer]; the [connect]
    that follows finds the handle set and starts no timer.  The node is
    online again and [connected] was emitted, but still no timer runs:
    [update] is never called, so no [peers] notification follows. *)
Theorem reconnect_never_polls w db a v db' :
  reachable w →
  _orbitdb (node w) = Some db →
  (truthy v = true → is_string v = true) →
  let i := length (requests w) in
  let w1 := run [do_disconnect; do_complete i (Success a)] w in
  let w2 := run [do_connect v; do_complete (S i) (Success (ADb db'))] w1 in
  ∃ t,
    _pollPeersTimer (node w) = Some t
    ∧ _orbitdb (node w1) = None
    ∧ _pollPeersTimer (node w1) = Some t
    ∧ intervals w1 = <[t := false]> (intervals w)
    ∧ (∀ t', fire t' w1 = w1)
    ∧ online (node w2) = true
    ∧ (∃ u, emitted w2 = emitted w ++ [disconnected; connected (Some u)])
    ∧ _pollPeersTimer (node w2) = Some t
    ∧ intervals w2 = <[t := false]> (intervals w)
    ∧ (∀ t', fire t' w2 = w2).
Proof.
  intros [Hhandle Hrun]%reachable_polling_sound Hdb Hv i w1 w2.
  destruct Hhandle as [t Ht]; [by rewrite Hdb|]. exists t.
  destruct (disconnect_completes w db a Hdb) as (Hn1 & Hi1 & He1 & Hr1 & _).
  fold i in Hn1, Hi1, He1, Hr1. change (complete i _ _) with w1 in *.
  rewrite Ht in Hi1.
  assert (_orbitdb (node w1) = None) as Hdb1 by by rewrite Hn1.
  assert (_connecting (node w1) = false) as Hc1 by by rewrite Hn1.
  assert (_pollPeersTimer (node w1) = Some t) as Ht1 by by rewrite Hn1.
  assert (length (requests w1) = S i) as Hlen.
  { rewrite Hr1, length_app. cbn. unfold i. lia. }
  destruct (connect_completes w1 v db' Hdb1 Hc1 Hv)
    as (Hdb2 & (u & _ & He2) & Ht2 & Hi2 & _).
  rewrite Hlen in *. change (complete (S i) _ _) with w2 in *.
  rewrite Ht1 in Ht2, Hi2. cbn in Ht2.
  assert (∀ t', <[t := false]> (intervals w) !! t' ≠ Some true) as Hstopped.
  { intros t' Ht'. destruct (decide (t = t')) as [<-|Hne].
    - destruct (intervals w !! t) eqn:Hlk.
      + rewrite list_lookup_insert_eq in Ht' by by eapply lookup_lt_Some. done.
      + rewrite list_insert_ge in Ht' by by apply lookup_ge_None. congruence.
    - rewrite list_lookup_insert_ne in Ht' by done.
      specialize (Hrun t' Ht'). congruence. }
  assert (∀ w', intervals w' = <[t := false]> (intervals w) →
                ∀ t', fire t' w' = w') as Hfire.
  { intros w' Hw' t'. unfold fire. rewrite Hw'.
    specialize (Hstopped t'). by destruct (_ !! t') as [[]|]. }
  split; [done|]. split; [done|]. split; [done|]. split; [done|].
  split; [by apply Hfire|].
  split; [unfold online; by rewrite Hdb2|].
  split; [exists u; by rewrite He2, He1, <- app_assoc|].
  split; [done|]. split; [by rewrite Hi2|].
  apply Hfire. by rewrite Hi2.
Qed.

Lemma reconnect_never_polls_witness :
  let w := alice_online in
  let i := length (requests w) in
  let w1 := run [do_disconnect; do_complete i (Success AUndefined)] w in
  let w2 := run [do_connect VUndefined; do_complete (S i) (Success (ADb alice_db))] w1 in
  ∃ t,
    _pollPeersTimer (node w) = Some t
    ∧ _orbitdb (node w1) = None
    ∧ _pollPeersTimer (node w1) = Some t
    ∧ intervals w1 = <[t := false]> (intervals w)
    ∧ (∀ t', fire t' w1 = w1)
    ∧ online (node w2) = true
    ∧ (∃ u, emitted w2 = emitted w ++ [disconnected; connected (Some u)])
    ∧ _pollPeersTimer (node w2) = Some t
    ∧ intervals w2 = <[t := false]> (intervals w)
    ∧ (∀ t', fire t' w2 = w2).
Proof.
  apply (reconnect_never_polls alice_online alice_db AUndefined VUndefined alice_db).
  - apply alice_online_reachable.
  - reflexivity.
  - vm_compute. discriminate.
Defined.

(** The same run from a fresh node, evaluated: after the second
    [connect] the node is online and its only timer is stopped. *)
Example reconnect_from_scratch :
  let w := run [do_connect VUndefined; do_complete 0 (Success (ADb alice_db));
                do_disconnect; do_complete 1 (Success AUndefined);
                do_connect VUndefined; do_complete 2 (Success (ADb alice_db))]
               (new_Orbit None) in
  online (node w) = true
  ∧ intervals w = [false]
  ∧ _pollPeersTimer (node w) = Some 0
  ∧ filter (λ e, is_peers e = true) (emitted (run [do_fire 0; do_fire 0] w)) = [].
Proof. vm_compute. done. Qed.

(** On the first connection the timer does run, and a poll emits [peers]. *)
Example first_connection_polls :
  let w := run [do_fire 0;
                do_complete 1 (Success (APeers [Some "/ip4/10.0.0.7"; None]))]
               alice_online in
  filter (λ e, is_peers e = true) (emitted w) = [peers ["/ip4/10.0.0.7"]]
  ∧ _peers (node w) = ["/ip4/10.0.0.7"].
Proof. vm_compute. done. Qed.

(** A poll that is in flight when [disconnect] completes still emits
    [peers] when the network answers. *)
Example poll_in_flight_outlives_disconnect :
  let w := run [do_fire 0; do_disconnect;
                do_complete 2 (Success AUndefined);
                do_complete 1 (Success (APeers [Some "/ip4/10.0.0.7"]))]
               alice_online in
  emitted w = [connected (Some {| name := VStr "alice"; location := "Earth";
                                  image := VNull |});
               disconnected; peers ["/ip4/10.0.0.7"]].
Proof. vm_compute. done. Qed.

(** * Further properties of the node *)

(** Destructs a world into named fields. *)
Ltac world_of w :=
  destruct w as [[odb profile chans prs timer opts queue busy]
                 evs proms reqs ivals clk];
  fields.

Lemma alice_in_general_reachable : reachable alice_in_general.
Proof.
  unfold alice_in_general, run. cbn [foldl].
  apply reachable_step, reachable_step, alice_online_reachable.
Qed.

Lemma alice_back_online_reachable : reachable alice_back_online.
Proof.
  unfold alice_back_online, run. cbn [foldl].
  do 4 apply reachable_step. apply alice_online_reachable.
Qed.

Lemma alice_polled_reachable : reachable alice_polled.
Proof.
  unfold alice_polled, run. cbn [foldl].
  apply reachable_step, reachable_step, alice_online_reachable.
Qed.

(** ** Creating and connecting *)

(** X1: [Orbit.create(options)] asks the provider for an instance with
    exactly the options given.  When the provider answers, the node is
    online, its identity is the provider's, its profile is named after
    [options.id], one [connected] notification carrying that profile was
    emitted, one poll timer runs, and [create] yields the node.  When the
    provider fails, [create] fails with that error; nothing was emitted and
    no timer was started. *)
Theorem create_connects options db :
  let p := (create options).1 in
  let w1 := (create options).2 in
  let w2 := complete 0 (Success (ADb db)) w1 in
  let u := {| name := default VUndefined (default ∅ options !! "id");
              location := "Earth"; image := VNull |} in
  requests w1 = [(createInstance (default ∅ options), Some (connect_k p))]
  ∧ create_result p w1 = None
  ∧ online (node w2) = true
  ∧ get_identity (node w2) = Some (identity db)
  ∧ get_userProfile (node w2) = Some u
  ∧ emitted w2 = [connected (Some u)]
  ∧ intervals w2 = [true]
  ∧ requests w2 = [(createInstance (default ∅ options), None)]
  ∧ create_result p w2 = Some (inr (node w2))
  ∧ ∀ e, let w3 := complete 0 (Failure e) w1 in
         create_result p w3 = Some (inl e)
         ∧ online (node w3) = false ∧ emitted w3 = [] ∧ intervals w3 = [].
Proof.
  cbn zeta. unfold create, new_Orbit. call. unfold create_result. answer.
  repeat split; done.
Qed.

Lemma connect_online w v db :
  _orbitdb (node w) = Some db →
  connect v w =
    (length (promises w),
     reject (length (promises w)) (Error "Already connected")
       (new_promise Pending w).2).
Proof. intros Hdb. unfold connect. cbn [new_promise node]. by rewrite Hdb. Qed.

(** X2: after a [connect] with an acceptable username, a further
    [connect] fails with "Already connecting" while the provider has not
    answered, and with "Already connected" once it has; in both cases the
    node, the requests and the notifications are as they were. *)
Theorem connect_twice w v db :
  _orbitdb (node w) = None → _connecting (node w) = false →
  (truthy v = true → is_string v = true) →
  let w1 := (connect v w).2 in
  let w2 := complete (length (requests w)) (Success (ADb db)) w1 in
  (∀ v', promises (connect v' w1).2 !! (connect v' w1).1
           = Some (Rejected (Error "Already connecting"))
         ∧ node (connect v' w1).2 = node w1
         ∧ requests (connect v' w1).2 = requests w1
         ∧ emitted (connect v' w1).2 = emitted w1)
  ∧ (∀ v', promises (connect v' w2).2 !! (connect v' w2).1
             = Some (Rejected (Error "Already connected"))
           ∧ node (connect v' w2).2 = node w2
           ∧ requests (connect v' w2).2 = requests w2
           ∧ emitted (connect v' w2).2 = emitted w2).
Proof.
  intros Hdb Hc Hv w1 w2.
  assert (_orbitdb (node w1) = None ∧ _connecting (node w1) = true
          ∧ _orbitdb (node w2) = Some db) as (Hdb1 & Hc1 & Hdb2).
  { subst w2 w1. world_of w. subst.
    assert (truthy v && negb (is_string v) = false) as Hvalid.
    { destruct (truthy v); [|done]. by rewrite Hv. }
    unfold connect. prims. rewrite Hvalid.
    destruct (truthy v), timer; prims.
    all: unfold complete; prims; cbn [resume]; unfold connect_resume; prims.
    all: done. }
  clearbody w1 w2. split; intros v'.
  - rewrite (connect_busy w1 v') by done. cbn [fst snd].
    split; [|done]. unfold reject, settle; cbn [promises new_promise snd].
    by rewrite !lookup_snoc, insert_snoc, lookup_snoc.
  - rewrite (connect_online w2 v' db) by done. cbn [fst snd].
    split; [|done]. unfold reject, settle; cbn [promises new_promise snd].
    by rewrite !lookup_snoc, insert_snoc, lookup_snoc.
Qed.

Lemma connect_twice_witness :
  let w := new_Orbit None in
  let w1 := (connect (VStr "alice") w).2 in
  let w2 := complete (length (requests w)) (Success (ADb alice_db)) w1 in
  (∀ v', promises (connect v' w1).2 !! (connect v' w1).1
           = Some (Rejected (Error "Already connecting"))
         ∧ node (connect v' w1).2 = node w1
         ∧ requests (connect v' w1).2 = requests w1
         ∧ emitted (connect v' w1).2 = emitted w1)
  ∧ (∀ v', promises (connect v' w2).2 !! (connect v' w2).1
             = Some (Rejected (Error "Already connected"))
           ∧ node (connect v' w2).2 = node w2
           ∧ requests (connect v' w2).2 = requests w2
           ∧ emitted (connect v' w2).2 = emitted w2).
Proof.
  apply (connect_twice (new_Orbit None) (VStr "alice") alice_db); reflexivity.
Defined.

(** Closes goals on the continuations in flight on a locked node. *)
Ltac unlocked :=
  rewrite ?pending_snoc; fields;
  repeat match goal with
  | |- _ ∧ _ => split
  | |- Forall _ (_ ++ _) => apply Forall_app; split
  | |- Forall _ [] => constructor
  | |- Forall _ (_ :: _) => constructor
  | |- Forall _ (omap snd (alter _ _ _)) => apply pending_answered
  end;
  try done; try congruence.

Lemma locked_step w a : locked w → locked (step w a).
Proof.
  intros (Hdb & Hc & Hk). unfold locked, pending in *.
  destruct a as [| | | | | |j r| |]; cbn [step].
  7:{ unfold complete.
      destruct (requests w !! j) as [[rq' [k'|]]|] eqn:Hj; try done.
      pose proof (pending_lookup _ j rq' k' (requests w) Hk Hj) as Hjk.
      cbn beta in Hjk. clear Hj. world w.
      destruct k', r as [[]|]; cbn [resume]; try done.
      all: each_resume unlocked. }
  all: world w; subst; each_call unlocked.
Qed.

Lemma locked_run acts w : locked w → locked (run acts w).
Proof.
  revert w; induction acts as [|a acts IH]; intros w Hw; [done|].
  cbn. apply IH. by apply locked_step.
Qed.

(** X3: on a disconnected node with no [connect] or [disconnect] in
    flight, when the provider fails to create the instance, [connect]
    fails with the provider's error and nothing is emitted.  From then on,
    whatever is called and whatever answers arrive, the node never gets
    online: every [connect] fails with "Already connecting" without asking
    the provider, and [disconnect] changes nothing. *)
Theorem connect_failure_locks w v e :
  _orbitdb (node w) = None → _connecting (node w) = false →
  (truthy v = true → is_string v = true) →
  Forall (λ k, lifecycle k = false) (pending w) →
  let p := (connect v w).1 in
  let w1 := complete (length (requests w)) (Failure e) (connect v w).2 in
  promises w1 !! p = Some (Rejected e)
  ∧ emitted w1 = emitted w
  ∧ ∀ acts v',
      let w2 := run acts w1 in
      online (node w2) = false
      ∧ promises (connect v' w2).2 !! (connect v' w2).1
        = Some (Rejected (Error "Already connecting"))
      ∧ requests (connect v' w2).2 = requests w2
      ∧ node (disconnect w2).2 = node w2.
Proof.
  intros Hdb Hc Hv Hk p w1.
  assert (promises w1 !! p = Some (Rejected e) ∧ emitted w1 = emitted w ∧ locked w1)
    as (Hp & He & Hlock).
  { subst p w1. unfold locked, pending in *. world_of w. subst.
    assert (truthy v && negb (is_string v) = false) as Hvalid.
    { destruct (truthy v); [|done]. by rewrite Hv. }
    unfold connect. prims. rewrite Hvalid.
    destruct (truthy v); prims.
    all: unfold complete; prims; cbn [resume]; unfold connect_resume; prims.
    all: by rewrite pending_snoc_answered. }
  split; [done|]. split; [done|]. intros acts v' w2.
  destruct (locked_run acts w1 Hlock) as (Hdb2 & Hc2 & _). fold w2 in Hdb2, Hc2.
  split; [unfold online; by rewrite Hdb2|].
  rewrite (connect_busy w2 v') by done. cbn [fst snd].
  split.
  { unfold reject, settle; cbn [promises new_promise snd].
    by rewrite !lookup_snoc, insert_snoc, lookup_snoc. }
  split; [done|]. unfold disconnect. cbn [new_promise node]. by rewrite Hdb2.
Qed.

Lemma connect_failure_locks_witness :
  let w := new_Orbit None in
  let v := VStr "alice" in
  let e := ProviderFailure "no repo" in
  let p := (connect v w).1 in
  let w1 := complete (length (requests w)) (Failure e) (connect v w).2 in
  promises w1 !! p = Some (Rejected e)
  ∧ emitted w1 = emitted w
  ∧ ∀ acts v',
      let w2 := run acts w1 in
      online (node w2) = false
      ∧ promises (connect v' w2).2 !! (connect v' w2).1
        = Some (Rejected (Error "Already connecting"))
      ∧ requests (connect v' w2).2 = requests w2
      ∧ node (disconnect w2).2 = node w2.
Proof.
  apply (connect_failure_locks (new_Orbit None) (VStr "alice")
           (ProviderFailure "no repo"));
    [reflexivity | reflexivity | reflexivity | constructor].
Defined.

(** ** Disconnecting *)

(** X4: [disconnect] called while [connect] waits for the provider does
    nothing: it succeeds at once, asks for nothing and emits nothing.  The
    connection goes on, and the node is online when the provider
    answers. *)
Theorem disconnect_while_connecting w v db :
  _orbitdb (node w) = None → _connecting (node w) = false →
  (truthy v = true → is_string v = true) →
  let w1 := (connect v w).2 in
  let p := (disconnect w1).1 in
  let w2 := (disconnect w1).2 in
  let w3 := complete (length (requests w)) (Success (ADb db)) w2 in
  promises w2 !! p = Some (Fulfilled AUndefined)
  ∧ node w2 = node w1 ∧ requests w2 = requests w1 ∧ emitted w2 = emitted w
  ∧ online (node w3) = true
  ∧ ∃ u, emitted w3 = emitted w ++ [connected (Some u)].
Proof.
  intros Hdb Hc Hv. world_of w. subst.
  assert (truthy v && negb (is_string v) = false) as Hvalid.
  { destruct (truthy v); [|done]. by rewrite Hv. }
  unfold connect. prims. rewrite Hvalid.
  destruct (truthy v), timer; prims.
  all: unfold disconnect; prims.
  all: unfold complete; prims; cbn [resume]; unfold connect_resume; prims.
  all: repeat split; try done; by eexists.
Qed.

Lemma disconnect_while_connecting_witness :
  let w := new_Orbit None in
  let w1 := (connect (VStr "alice") w).2 in
  let p := (disconnect w1).1 in
  let w2 := (disconnect w1).2 in
  let w3 := complete (length (requests w)) (Success (ADb alice_db)) w2 in
  promises w2 !! p = Some (Fulfilled AUndefined)
  ∧ node w2 = node w1 ∧ requests w2 = requests w1 ∧ emitted w2 = emitted w
  ∧ online (node w3) = true
  ∧ ∃ u, emitted w3 = emitted w ++ [connected (Some u)].
Proof.
  apply (disconnect_while_connecting (new_Orbit None) (VStr "alice") alice_db);
    reflexivity.
Defined.

(** X5: [disconnect] on a connected node asks the provider to disconnect
    and changes nothing until it answers.  On success the node is offline,
    the registry is empty and the profile is gone, while the joining queue,
    the list of peers and the options are kept; the only request made is
    the provider's disconnect (no feed is closed) and the only notification
    is [disconnected].  On failure the call fails with that error and the
    node, the notifications and the timers are as before. *)
Theorem disconnect_outcome w db :
  _orbitdb (node w) = Some db →
  let i := length (requests w) in
  let p := (disconnect w).1 in
  let w1 := (disconnect w).2 in
  requests w1 = requests w ++ [(orbitdb_disconnect db, Some (disconnect_k p))]
  ∧ node w1 = node w ∧ emitted w1 = emitted w
  ∧ (∀ a, let w2 := complete i (Success a) w1 in
       online (node w2) = false
       ∧ get_channels (node w2) = ∅
       ∧ get_userProfile (node w2) = None
       ∧ _connecting (node w2) = false
       ∧ _joiningQueue (node w2) = _joiningQueue (node w)
       ∧ get_peers (node w2) = get_peers (node w)
       ∧ _options (node w2) = _options (node w)
       ∧ emitted w2 = emitted w ++ [disconnected]
       ∧ requests w2 = requests w ++ [(orbitdb_disconnect db, None)]
       ∧ promises w2 !! p = Some (Fulfilled AUndefined))
  ∧ (∀ e, let w2 := complete i (Failure e) w1 in
       node w2 = node w ∧ emitted w2 = emitted w ∧ intervals w2 = intervals w
       ∧ promises w2 !! p = Some (Rejected e)).
Proof.
  intros Hdb. world_of w. subst. destruct timer.
  all: unfold disconnect; prims.
  all: repeat split; try done; intros; unfold complete; prims; cbn [resume];
    unfold disconnect_resume; prims; by rewrite ?lookup_snoc.
Qed.

Lemma disconnect_outcome_witness :
  let w := alice_in_general in
  let db := alice_db in
  let i := length (requests w) in
  let p := (disconnect w).1 in
  let w1 := (disconnect w).2 in
  requests w1 = requests w ++ [(orbitdb_disconnect db, Some (disconnect_k p))]
  ∧ node w1 = node w ∧ emitted w1 = emitted w
  ∧ (∀ a, let w2 := complete i (Success a) w1 in
       online (node w2) = false
       ∧ get_channels (node w2) = ∅
       ∧ get_userProfile (node w2) = None
       ∧ _connecting (node w2) = false
       ∧ _joiningQueue (node w2) = _joiningQueue (node w)
       ∧ get_peers (node w2) = get_peers (node w)
       ∧ _options (node w2) = _options (node w)
       ∧ emitted w2 = emitted w ++ [disconnected]
       ∧ requests w2 = requests w ++ [(orbitdb_disconnect db, None)]
       ∧ promises w2 !! p = Some (Fulfilled AUndefined))
  ∧ (∀ e, let w2 := complete i (Failure e) w1 in
       node w2 = node w ∧ emitted w2 = emitted w ∧ intervals w2 = intervals w
       ∧ promises w2 !! p = Some (Rejected e)).
Proof. apply (disconnect_outcome alice_in_general alice_db). reflexivity. Defined.

(** ** The profile and the options *)

Lemma options_step w a :
  (∀ s, a ≠ do_connect (VStr s)) →
  _options (node (step w a)) = _options (node w).
Proof.
  intros Ha.
  destruct a as [v| | | | | |j r| |]; cbn [step].
  7:{ unfold complete.
      destruct (requests w !! j) as [[rq' [k'|]]|] eqn:Hj; try done.
      clear Hj. world w.
      destruct k', r as [[]|]; cbn [resume]; try done.
      all: each_resume done. }
  1:{ destruct v; try (by destruct (Ha s)); clear Ha; world w; each_call done. }
  all: clear Ha; world w; each_call done.
Qed.

Lemma options_run w acts :
  Forall (λ a, ∀ s, a ≠ do_connect (VStr s)) acts →
  _options (node (run acts w)) = _options (node w).
Proof.
  intros Hacts. revert w. induction Hacts as [|a acts Ha _ IH]; intros w; [done|].
  change (run (a :: acts) w) with (run acts (step w a)).
  rewrite IH. by apply options_step.
Qed.

(** X6: [connect] with a non-empty string stores it as [id] in the
    options of the node.  It stays there through whatever happens next,
    short of another [connect] with a string: a later [connect] with no
    username builds the profile with that name and hands the provider the
    same options. *)
Theorem username_remembered w s acts :
  _orbitdb (node w) = None → _connecting (node w) = false → s ≠ "" →
  Forall (λ a, ∀ s', a ≠ do_connect (VStr s')) acts →
  let w1 := run acts (connect (VStr s) w).2 in
  _options (node w1) !! "id" = Some (VStr s)
  ∧ ∀ v, truthy v = false →
         _orbitdb (node w1) = None → _connecting (node w1) = false →
         let p := (connect v w1).1 in
         let w2 := (connect v w1).2 in
         get_userProfile (node w2)
           = Some {| name := VStr s; location := "Earth"; image := VNull |}
         ∧ requests w2 = requests w1
                         ++ [(createInstance (_options (node w1)), Some (connect_k p))].
Proof.
  intros Hdb Hc Hs Hacts w1.
  assert (_options (node w1) !! "id" = Some (VStr s)) as Hid.
  { subst w1. rewrite options_run by done. apply String.eqb_neq in Hs.
    world_of w. subst. unfold connect. prims. cbn [truthy is_string]. rewrite Hs. prims.
    apply lookup_insert_eq. }
  split; [done|]. intros v Hv Hdb1 Hc1. clearbody w1. world_of w1. subst.
  unfold connect. prims. rewrite Hv. prims. by rewrite Hid.
Qed.

Lemma username_remembered_witness :
  let w := new_Orbit None in
  let acts := [do_complete 0 (Success (ADb alice_db)); do_join "general" None;
               do_disconnect; do_complete 2 (Success AUndefined)] in
  let w1 := run acts (connect (VStr "alice") w).2 in
  _options (node w1) !! "id" = Some (VStr "alice")
  ∧ ∀ v, truthy v = false →
         _orbitdb (node w1) = None → _connecting (node w1) = false →
         let p := (connect v w1).1 in
         let w2 := (connect v w1).2 in
         get_userProfile (node w2)
           = Some {| name := VStr "alice"; location := "Earth"; image := VNull |}
         ∧ requests w2 = requests w1
                         ++ [(createInstance (_options (node w1)), Some (connect_k p))].
Proof.
  apply (username_remembered (new_Orbit None) "alice");
    [reflexivity | reflexivity | discriminate | repeat constructor; discriminate].
Defined.

(** Closes goals on the profile and the [connected] notifications. *)
Ltac profiled :=
  unfold profile_of in *; fields;
  repeat match goal with
  | |- _ ∧ _ => split
  | |- Forall _ (_ ++ _) => apply Forall_app; split
  | |- Forall _ [] => constructor
  | |- Forall _ [_] => constructor; [intros ? ?; simplify_eq | constructor]
  | |- ∀ _, Some _ = Some _ → _ => intros ? ?; simplify_eq
  | |- ∀ _, None = Some _ → _ => by intros ? ?
  | H : ∀ u0, Some ?u = Some u0 → _ |- _ =>
      destruct (H _ eq_refl) as (? & ? & ?); clear H
  end;
  try done; try (by eauto).

Lemma profiles_sound_step w a : profiles_sound w → profiles_sound (step w a).
Proof.
  unfold profiles_sound. intros [Hu He].
  destruct a as [| | | | | |j r| |]; cbn [step].
  7:{ unfold complete.
      destruct (requests w !! j) as [[rq' [k'|]]|] eqn:Hj; try done.
      clear Hj. world w.
      destruct k', r as [[]|]; cbn [resume]; try done.
      all: each_resume profiled. }
  all: world w; each_call profiled.
Qed.

Lemma reachable_profiles_sound w : reachable w → profiles_sound w.
Proof.
  apply reachable_ind_step; [|apply profiles_sound_step].
  intros options. split; [done | constructor].
Qed.

(** X7: in every reachable world the profile of the node, when it has
    one, is named after the [id] of its options, is located on "Earth" and
    has no image; and every [connected] notification emitted so far carries
    a profile, never null, with that location and no image. *)
Theorem connected_carries_profile w :
  reachable w →
  (∀ u, get_userProfile (node w) = Some u →
        name u = default VUndefined (_options (node w) !! "id")
        ∧ location u = "Earth" ∧ image u = VNull)
  ∧ (∀ o, connected o ∈ emitted w →
        ∃ u, o = Some u ∧ location u = "Earth" ∧ image u = VNull).
Proof.
  intros [Hu He]%reachable_profiles_sound. split; [exact Hu|].
  intros o Ho. rewrite Forall_forall in He. by apply (He _ Ho).
Qed.

Lemma connected_carries_profile_witness :
  (∀ u, get_userProfile (node alice_back_online) = Some u →
        name u = default VUndefined (_options (node alice_back_online) !! "id")
        ∧ location u = "Earth" ∧ image u = VNull)
  ∧ (∀ o, connected o ∈ emitted alice_back_online →
        ∃ u, o = Some u ∧ location u = "Earth" ∧ image u = VNull).
Proof.
  apply (connected_carries_profile alice_back_online), alice_back_online_reachable.
Defined.

(** ** Polling for peers *)

(** Closes goals on the timers after a step. *)
Ltac ticking :=
  repeat match goal with H : _ ∧ _ |- _ => destruct H end;
  simplify_eq; rewrite ?length_insert, ?length_app; cbn [length];
  try done; try (split; [done | lia]).

Lemma one_timer_step w a : one_timer w → one_timer (step w a).
Proof.
  unfold one_timer. intros Hw.
  destruct a as [| | | | | |j r| |]; cbn [step].
  7:{ unfold complete.
      destruct (requests w !! j) as [[rq' [k'|]]|] eqn:Hj; try done.
      clear Hj. world w.
      destruct k', r as [[]|]; cbn [resume]; try done.
      all: each_resume ticking. }
  all: world w; each_call ticking.
Qed.

Lemma reachable_one_timer w : reachable w → one_timer w.
Proof. apply reachable_ind_step; [done | apply one_timer_step]. Qed.

(** X8: in every reachable world at most one interval timer was ever
    created, however often the node connected and disconnected; one was
    created exactly when [_pollPeersTimer] is set. *)
Theorem one_timer_per_node w :
  reachable w →
  length (intervals w) ≤ 1
  ∧ (length (intervals w) = 1 ↔ is_Some (_pollPeersTimer (node w))).
Proof.
  intros Hw%reachable_one_timer. unfold one_timer in Hw.
  destruct (_pollPeersTimer (node w)) as [t|].
  - destruct Hw as [_ ->]. split; [lia|]. split; eauto.
  - rewrite Hw. cbn. split; [lia|]. split; [lia | by intros []].
Qed.

Lemma one_timer_per_node_witness :
  length (intervals alice_back_online) ≤ 1
  ∧ (length (intervals alice_back_online) = 1
     ↔ is_Some (_pollPeersTimer (node alice_back_online))).
Proof.
  apply (one_timer_per_node alice_back_online), alice_back_online_reachable.
Defined.

(** X9: when the running timer fires, the swarm is asked for its peers
    and nothing else changes.  When it answers, the list of peers becomes
    the addresses of the entries that have one, in order, and [peers] is
    emitted with that list.  When the query fails, the list of peers
    becomes empty and [peers] is emitted with the empty list; no promise is
    touched either way. *)
Theorem poll_updates_peers w t :
  intervals w !! t = Some true →
  let i := length (requests w) in
  let w1 := fire t w in
  requests w1 = requests w ++ [(swarm_peers, Some update_k)]
  ∧ node w1 = node w ∧ emitted w1 = emitted w
  ∧ (∀ entries, let w2 := complete i (Success (APeers entries)) w1 in
       get_peers (node w2) = omap id entries
       ∧ emitted w2 = emitted w ++ [peers (omap id entries)]
       ∧ promises w2 = promises w)
  ∧ (∀ e, let w2 := complete i (Failure e) w1 in
       get_peers (node w2) = []
       ∧ emitted w2 = emitted w ++ [peers []]
       ∧ promises w2 = promises w).
Proof.
  intros Ht. cbn zeta. unfold fire. rewrite Ht.
  split; [done|]. split; [done|]. split; [done|].
  split; intros; rewrite complete_await by done; cbn [resume];
    unfold update_resume; cbn [_updateSwarmPeers]; world_of w; prims; done.
Qed.

Lemma poll_updates_peers_witness :
  let w := alice_online in
  let i := length (requests w) in
  let w1 := fire 0 w in
  requests w1 = requests w ++ [(swarm_peers, Some update_k)]
  ∧ node w1 = node w ∧ emitted w1 = emitted w
  ∧ (∀ entries, let w2 := complete i (Success (APeers entries)) w1 in
       get_peers (node w2) = omap id entries
       ∧ emitted w2 = emitted w ++ [peers (omap id entries)]
       ∧ promises w2 = promises w)
  ∧ (∀ e, let w2 := complete i (Failure e) w1 in
       get_peers (node w2) = []
       ∧ emitted w2 = emitted w ++ [peers []]
       ∧ promises w2 = promises w).
Proof. apply (poll_updates_peers alice_online 0). reflexivity. Defined.

Lemma last_peers_snoc es e :
  last_peers (es ++ [e]) = match e with peers addrs => addrs | _ => last_peers es end.
Proof. unfold last_peers. by rewrite foldl_app. Qed.

(** Closes goals on the peers last announced. *)
Ltac heard :=
  simplify_eq; prims; rewrite ?last_peers_snoc; try done.

Lemma peers_step w a :
  get_peers (node w) = last_peers (emitted w) →
  get_peers (node (step w a)) = last_peers (emitted (step w a)).
Proof.
  unfold get_peers. intros Hw.
  destruct a as [| | | | | |j r| |]; cbn [step].
  7:{ unfold complete.
      destruct (requests w !! j) as [[rq' [k'|]]|] eqn:Hj; try done.
      clear Hj. world w.
      destruct k', r as [[]|]; cbn [resume]; try done.
      all: each_resume heard. }
  all: world w; each_call heard.
Qed.

(** X10: in every reachable world the list the [peers] getter returns
    is the list carried by the last [peers] notification, and is empty
    before the first; [disconnect] does not reset it. *)
Theorem peers_follow_notifications w :
  reachable w → get_peers (node w) = last_peers (emitted w).
Proof.
  revert w. apply (reachable_ind_step (λ w, get_peers (node w) = last_peers (emitted w)));
    [done | apply peers_step].
Qed.

Lemma peers_follow_notifications_witness :
  get_peers (node alice_polled) = last_peers (emitted alice_polled).
Proof. apply (peers_follow_notifications alice_polled), alice_polled_reachable. Defined.

(** ** Joining, leaving and the registry *)

(** X11: the first [join] on a connected node of a name that
    [_channels] does not inherit from [Object.prototype] opens the log with
    the caller's options, every one of them kept as given, and with
    [accessController] set to let anyone write when the caller names
    none. *)
Theorem join_channel_options w c db options :
  c ≠ "" → inherited c = false → _orbitdb (node w) = Some db →
  _channels (node w) !! c = None → _joiningQueue (node w) !! c = None →
  let p := (join c options w).1 in
  let w1 := (join c options w).2 in
  ∃ sent,
    requests w1 = requests w ++ [(orbitdb_log db c sent, Some (join_k c p))]
    ∧ (∀ key v, default ∅ options !! key = Some v → sent !! key = Some v)
    ∧ (default ∅ options !! "accessController" = None →
       sent !! "accessController"
       = Some (VObject [ ("write", VObject [ ("0", VStr "*") ]) ]))
    ∧ (∀ key, key ≠ "accessController" → sent !! key = default ∅ options !! key).
Proof.
  intros Hc Hinh Hdb Hch Hq. cbn zeta. rewrite (join_first w c db options) by done.
  cbn [fst snd]. eexists. split; [reflexivity|]. unfold default_channelOptions.
  split; [|split].
  - intros key v Hv. by apply lookup_union_Some_l.
  - intros Hnone. rewrite lookup_union_r by done. apply lookup_singleton_eq.
  - intros key Hkey. rewrite lookup_union_l; [done|]. by apply lookup_singleton_ne.
Qed.

Lemma join_channel_options_witness :
  let w := alice_online in
  let c := "general" in
  let options := Some {[ "replicate" := VBool false ]} in
  let p := (join c options w).1 in
  let w1 := (join c options w).2 in
  ∃ sent,
    requests w1 = requests w ++ [(orbitdb_log alice_db c sent, Some (join_k c p))]
    ∧ (∀ key v, default ∅ options !! key = Some v → sent !! key = Some v)
    ∧ (default ∅ options !! "accessController" = None →
       sent !! "accessController"
       = Some (VObject [ ("write", VObject [ ("0", VStr "*") ]) ]))
    ∧ (∀ key, key ≠ "accessController" → sent !! key = default ∅ options !! key).
Proof.
  apply (join_channel_options alice_online "general" alice_db
           (Some {[ "replicate" := VBool false ]}));
    [discriminate | reflexivity | reflexivity | reflexivity | reflexivity].
Defined.

(** X12: joining a name that [_channels] does not inherit from
    [Object.prototype] and that is neither live nor queued, and then
    leaving it, each time with the provider answering, gives back the node
    as it was, field by field: [joined] and [left] were emitted, both
    calls succeeded, and the log was opened and its feed closed once. *)
Theorem join_leave_round_trip w c db o f a :
  c ≠ "" → inherited c = false → _orbitdb (node w) = Some db →
  _channels (node w) !! c = None → _joiningQueue (node w) !! c = None →
  let i := length (requests w) in
  let ch := {| channelName := c; feed := Some f |} in
  let w' := run [do_join c o; do_complete i (Success (AFeed f));
                 do_leave c; do_complete (S i) (Success a)] w in
  node w' = node w
  ∧ emitted w' = emitted w ++ [joined c ch; left c]
  ∧ promises w' = promises w ++ [Fulfilled (AChannel ch); Fulfilled AUndefined]
  ∧ requests w' = requests w
                  ++ [(orbitdb_log db c (default ∅ o ∪ default_channelOptions), None);
                      (feed_close f, None)].
Proof.
  intros Hc Hinh Hdb Hch Hq i ch w'. subst w' i. unfold run. cbn [foldl step].
  rewrite (join_first w c db o) by done. cbn [snd].
  rewrite (complete_last (length (requests w)) (Success (AFeed f)) _ (requests w)
             (orbitdb_log db c (default ∅ o ∪ default_channelOptions))
             (join_k c (length (promises w)))); [| reflexivity | reflexivity].
  cbn [resume]. rewrite join_resume_success. cbn [default from_option id].
  world_of w. subst. prims.
  unfold leave, get_channels. prims. rewrite lookup_insert_eq. cbn [feed]. prims.
  unfold complete. prims.
  rewrite lookup_app_r by (rewrite length_app; cbn; lia).
  rewrite length_app. cbn [length].
  replace (S (length reqs) - (length reqs + 1)) with 0 by lia.
  cbn [lookup list_lookup resume]. unfold leave_resume. prims.
  rewrite !delete_insert_id by done.
  rewrite <- !app_assoc. cbn [app].
  repeat split; try done.
  rewrite alter_app_r_alt by lia.
  by replace (S (length reqs) - length reqs) with 1 by lia.
Qed.

Lemma join_leave_round_trip_witness :
  let w := alice_online in
  let c := "general" in
  let i := length (requests w) in
  let ch := {| channelName := c; feed := Some general_feed |} in
  let w' := run [do_join c None; do_complete i (Success (AFeed general_feed));
                 do_leave c; do_complete (S i) (Success AUndefined)] w in
  node w' = node w
  ∧ emitted w' = emitted w ++ [joined c ch; left c]
  ∧ promises w' = promises w ++ [Fulfilled (AChannel ch); Fulfilled AUndefined]
  ∧ requests w' = requests w
                  ++ [(orbitdb_log alice_db c (default ∅ None ∪ default_channelOptions),
                       None);
                      (feed_close general_feed, None)].
Proof.
  apply (join_leave_round_trip alice_online "general" alice_db None general_feed
           AUndefined);
    [discriminate | reflexivity | reflexivity | reflexivity | reflexivity].
Defined.

(** X13: [disconnect] does not cancel a [join] in flight (of a name
    that [_channels] does not inherit from [Object.prototype], neither live
    nor queued).  When the log opens after the node has disconnected, the
    channel is registered on the offline node, [joined] is emitted after
    [disconnected], and the promise of [join] is fulfilled with the
    channel. *)
Theorem join_outlives_disconnect w c db o f a :
  c ≠ "" → inherited c = false → _orbitdb (node w) = Some db →
  _channels (node w) !! c = None → _joiningQueue (node w) !! c = None →
  let i := length (requests w) in
  let ch := {| channelName := c; feed := Some f |} in
  let w' := run [do_join c o; do_disconnect; do_complete (S i) (Success a);
                 do_complete i (Success (AFeed f))] w in
  online (node w') = false
  ∧ get_channels (node w') = {[ c := ch ]}
  ∧ emitted w' = emitted w ++ [disconnected; joined c ch]
  ∧ promises w' !! (join c o w).1 = Some (Fulfilled (AChannel ch)).
Proof.
  intros Hc Hinh Hdb Hch Hq i ch w'. subst w' i. unfold run. cbn [foldl step].
  rewrite (join_first w c db o) by done. cbn [fst snd].
  set (opn := orbitdb_log db c (default ∅ o ∪ default_channelOptions)).
  set (p := length (promises w)).
  set (w1 := with_node _ _).
  assert (_orbitdb (node w1) = Some db) as Hdb1 by done.
  assert (length (requests w1) = S (length (requests w))) as Hlen.
  { subst w1. cbn. rewrite length_app. cbn. lia. }
  destruct (disconnect_completes w1 db a Hdb1) as (Hn & _ & He & Hr & Hp).
  rewrite Hlen in *.
  set (w3 := complete (S (length (requests w))) (Success a) (disconnect w1).2) in *.
  assert (requests w3 !! length (requests w) = Some (opn, Some (join_k c p))) as Hlk.
  { rewrite Hr. subst w1. cbn [with_node await requests].
    rewrite lookup_app_l by (rewrite length_app; cbn; lia). apply lookup_snoc. }
  unfold complete. rewrite Hlk. cbn [resume]. rewrite join_resume_success.
  cbn [default from_option id]. unfold online, get_channels, resolve, settle.
  cbn [node emitted promises with_node emit answered set_joiningQueue set_channels
       _channels _orbitdb].
  rewrite Hn, He, Hp. subst w1.
  cbn [node emitted promises with_node await new_promise snd set_joiningQueue
       set_channels set_userProfile set_orbitdb set_connecting _channels _orbitdb].
  split; [done|]. split; [by rewrite insert_empty|].
  split; [by rewrite <- app_assoc|].
  subst p.
  rewrite lookup_app_l, lookup_snoc by (rewrite length_app; cbn; lia).
  rewrite list_lookup_insert_eq by (rewrite !length_app; cbn; lia). done.
Qed.

Lemma join_outlives_disconnect_witness :
  let w := alice_online in
  let c := "general" in
  let i := length (requests w) in
  let ch := {| channelName := c; feed := Some general_feed |} in
  let w' := run [do_join c None; do_disconnect; do_complete (S i) (Success AUndefined);
                 do_complete i (Success (AFeed general_feed))] w in
  online (node w') = false
  ∧ get_channels (node w') = {[ c := ch ]}
  ∧ emitted w' = emitted w ++ [disconnected; joined c ch]
  ∧ promises w' !! (join c None w).1 = Some (Fulfilled (AChannel ch)).
Proof.
  apply (join_outlives_disconnect alice_online "general" alice_db None general_feed
           AUndefined);
    [discriminate | reflexivity | reflexivity | reflexivity | reflexivity].
Defined.

(** Closes goals on the channels registered after a step. *)
Ltac registered :=
  fields;
  repeat match goal with
  | |- ∀ c ch, _ → _ => intros ? ? ?
  | H : <[_ := _]> _ !! _ = Some _ |- _ =>
      apply lookup_insert_Some in H as [[<- <-]|[? H]]
  | H : delete _ _ !! _ = Some _ |- _ => apply lookup_delete_Some in H as [? H]
  | H : ∅ !! _ = Some _ |- _ => by rewrite lookup_empty in H
  | Hw : ∀ c ch, ?m !! c = Some ch → _, H : ?m !! _ = Some _ |- _ =>
      destruct (Hw _ _ H) as (? & ? & ?); clear Hw
  end;
  fields;
  repeat match goal with
  | |- _ ∧ _ => split
  | |- is_Some (Some _) => by eexists
  | |- delete _ _ !! _ = None => apply lookup_delete_None
  | |- <[_ := _]> _ !! _ = None => apply lookup_insert_None
  end;
  try done; try (by left); try (by right); try congruence.

Lemma registry_sound_step w a : registry_sound w → registry_sound (step w a).
Proof.
  unfold registry_sound. intros Hw.
  destruct a as [| | | | | |j r| |]; cbn [step].
  7:{ unfold complete.
      destruct (requests w !! j) as [[rq' [k'|]]|] eqn:Hj; try done.
      clear Hj. world w.
      destruct k', r as [[]|]; cbn [resume]; try done.
      all: each_resume registered. }
  all: world w; each_call registered.
Qed.

Lemma reachable_registry_sound w : reachable w → registry_sound w.
Proof.
  apply reachable_ind_step; [|apply registry_sound_step].
  intros options c ch Hc. unfold new_Orbit in Hc. cbn [node _channels] in Hc.
  by rewrite lookup_empty in Hc.
Qed.

(** X14: in every reachable world a channel in the registry is stored
    under the name it was created with, has a feed,
    and has no entry left in the joining queue. *)
Theorem registry_names w c ch :
  reachable w → _channels (node w) !! c = Some ch →
  channelName ch = c ∧ is_Some (feed ch) ∧ _joiningQueue (node w) !! c = None.
Proof. intros Hw%reachable_registry_sound. apply Hw. Qed.

Lemma registry_names_witness :
  channelName general = "general" ∧ is_Some (feed general)
  ∧ _joiningQueue (node alice_in_general) !! "general" = None.
Proof.
  apply (registry_names alice_in_general "general" general);
    [apply alice_in_general_reachable | reflexivity].
Defined.

(** Closes goals on the own keys of the registry and of the joining
    queue after a step. *)
Ltac owned :=
  rewrite ?pending_snoc; fields;
  repeat match goal with
  | |- _ ∧ _ => split
  | |- Forall _ (_ ++ _) => apply Forall_app; split
  | |- Forall _ [] => constructor
  | |- Forall _ [_] =>
      constructor; [cbn [join_slot]; intros ? ?; simplify_eq | constructor]
  | |- Forall _ (omap snd (alter _ _ _)) => apply pending_answered
  | |- ∀ c, is_Some _ → _ => intros ? ?
  | H : is_Some (<[_ := _]> _ !! _) |- _ =>
      apply lookup_insert_is_Some in H as [<-|[? H]]
  | H : is_Some (delete _ _ !! _) |- _ =>
      apply lookup_delete_is_Some in H as [? H]
  | H : is_Some (∅ !! _) |- _ => rewrite lookup_empty in H; by destruct H
  end;
  try done; eauto.

Lemma own_names_step w a : own_names w → own_names (step w a).
Proof.
  intros (Hch & Hq & Hk). unfold own_names, pending in *.
  destruct a as [| | | | | |j r| |]; cbn [step].
  7:{ unfold complete.
      destruct (requests w !! j) as [[rq' [k'|]]|] eqn:Hj; try done.
      pose proof (pending_lookup _ j rq' k' (requests w) Hk Hj) as Hjk.
      cbn beta in Hjk. clear Hj. world w.
      destruct k', r as [[]|]; cbn [resume join_slot] in *; try done.
      all: try specialize (Hjk _ eq_refl).
      all: each_resume owned. }
  all: world w; each_call owned.
Qed.

Lemma reachable_own_names w : reachable w → own_names w.
Proof.
  apply reachable_ind_step; [|apply own_names_step].
  intros options. unfold own_names, new_Orbit, pending.
  cbn [node _channels _joiningQueue requests omap list_omap].
  split; [|split]; [| |constructor]; intros c Hc;
    rewrite lookup_empty in Hc; by destruct Hc.
Qed.

(** X15: in every reachable world [_getChannelFeed] raises "Have not
    joined" for exactly the names that [channels] inherits from
    [Object.prototype]: a registered channel has a feed, and any other
    name with no entry fails earlier, on reading [feed] of undefined.  So
    a [send] with a message and a profile fails with "Have not joined" for
    those names and for no other. *)
Theorem not_joined_error_only_inherited w c :
  reachable w →
  (_getChannelFeed c (node w) = inl (ChannelNotJoined c) ↔ inherited c = true)
  ∧ ∀ message u,
      message ≠ "" → get_userProfile (node w) = Some u →
      (promises (send c message w).2 !! (send c message w).1
         = Some (Rejected (ChannelNotJoined c))
       ↔ inherited c = true).
Proof.
  intros Hw. pose proof (reachable_registry_sound w Hw) as Hreg.
  pose proof (reachable_own_names w Hw) as (Hown & _ & _).
  assert (_getChannelFeed c (node w) = inl (ChannelNotJoined c) ↔ inherited c = true)
    as Hfeed.
  { rewrite _getChannelFeed_not_joined. split.
    - intros (_ & [(ch & Hch & Hf) | [_ Hi]]); [|done].
      destruct (Hreg c ch Hch) as (_ & [f Hf'] & _). congruence.
    - intros Hi. split.
      + intros ->. by vm_compute in Hi.
      + right. split; [|done].
        destruct (_channels (node w) !! c) as [ch|] eqn:Hch; [|done].
        rewrite Hown in Hi by (by rewrite Hch). done. }
  split; [done|]. intros message u Hm Hu.
  unfold send. cbn [new_promise]. apply String.eqb_neq in Hm. rewrite Hm.
  unfold get_userProfile in *. cbn [node]. rewrite Hu.
  destruct (String.eqb_spec c "") as [->|Hc]; cbn [fst snd].
  { unfold reject, settle; cbn [promises new_promise snd].
    rewrite !lookup_snoc, insert_snoc, lookup_snoc. unfold ChannelNotJoined.
    split; [discriminate | by vm_compute]. }
  unfold return_postMessage, _postMessage. cbn [node].
  rewrite <- Hfeed.
  destruct (_getChannelFeed c (node w)) as [e|f] eqn:He.
  - unfold reject, settle; cbn [promises new_promise snd fst].
    rewrite !lookup_snoc, insert_snoc, lookup_snoc.
    split; congruence.
  - cbn [await promises fst snd]. rewrite lookup_snoc.
    split; discriminate.
Qed.

Lemma not_joined_error_only_inherited_witness :
  (_getChannelFeed "constructor" (node alice_online)
     = inl (ChannelNotJoined "constructor")
   ↔ inherited "constructor" = true)
  ∧ ∀ message u,
      message ≠ "" → get_userProfile (node alice_online) = Some u →
      (promises (send "constructor" message alice_online).2
         !! (send "constructor" message alice_online).1
         = Some (Rejected (ChannelNotJoined "constructor"))
       ↔ inherited "constructor" = true).
Proof.
  apply (not_joined_error_only_inherited alice_online "constructor"),
    alice_online_reachable.
Defined.

(** On a connected node with nothing joined: "constructor" gets the
    "Have not joined" error, "lobby" the TypeError. *)
Example send_to_inherited_name :
  let w := run [do_send "constructor" "hello"; do_send "lobby" "hello"] alice_online in
  promises w !! 1 = Some (Rejected (ChannelNotJoined "constructor"))
  ∧ promises w !! 2 = Some (Rejected (TypeError "feed"))
  ∧ appended w = [].
Proof. vm_compute. done. Qed.

(** ** Posting *)

(** X16: [send] checks the channel name, then the message, then the
    profile.  With an empty name, an empty message or no profile it fails
    with the error of the first check that does not pass; it asks for
    nothing, emits nothing and leaves the node as it was. *)
Theorem send_invalid w c message :
  c = "" ∨ message = "" ∨ get_userProfile (node w) = None →
  let p := (send c message w).1 in
  let w1 := (send c message w).2 in
  promises w1 !! p =
    Some (Rejected (Error
      (if String.eqb c "" then "Channel must be specified"
       else if String.eqb message "" then "Can't send an empty message"
       else "Something went wrong: 'userProfile' is undefined")))
  ∧ node w1 = node w ∧ requests w1 = requests w ∧ emitted w1 = emitted w.
Proof.
  intros H. world_of w. unfold send, get_userProfile in *. prims.
  destruct (String.eqb_spec c "") as [->|Hc]; prims; [by rewrite ?lookup_snoc|].
  destruct (String.eqb_spec message "") as [->|Hm]; prims; [by rewrite ?lookup_snoc|].
  destruct H as [?|[?| ->]]; try done. prims. by rewrite ?lookup_snoc.
Qed.

Lemma send_invalid_witness :
  let w := new_Orbit None in
  let c := "general" in
  let message := "hello" in
  let p := (send c message w).1 in
  let w1 := (send c message w).2 in
  promises w1 !! p =
    Some (Rejected (Error
      (if String.eqb c "" then "Channel must be specified"
       else if String.eqb message "" then "Can't send an empty message"
       else "Something went wrong: 'userProfile' is undefined")))
  ∧ node w1 = node w ∧ requests w1 = requests w ∧ emitted w1 = emitted w.
Proof.
  apply (send_invalid (new_Orbit None) "general" "hello").
  right. right. reflexivity.
Defined.

(** X17: on a node with a profile and a live channel, [send] hands the
    feed one post whose [meta] holds the profile as [from], the type
    "text" and the time of the call, and nothing else.  The call stays
    pending until the feed answers, and then succeeds with what the feed
    returned or fails with the feed's error. *)
Theorem send_outcome w c message u ch f :
  c ≠ "" → message ≠ "" →
  get_userProfile (node w) = Some u →
  _channels (node w) !! c = Some ch → feed ch = Some f →
  let i := length (requests w) in
  let p := (send c message w).1 in
  let w1 := (send c message w).2 in
  ∃ data,
    requests w1 = requests w ++ [(feed_add f data, Some (post_k p))]
    ∧ meta data = {[ "from" := profile_value u; "type" := VStr "text";
                     "ts" := VNum (clock w) ]}
    ∧ promises w1 !! p = Some Pending
    ∧ (∀ a, promises (complete i (Success a) w1) !! p = Some (Fulfilled a))
    ∧ (∀ e, promises (complete i (Failure e) w1) !! p = Some (Rejected e)).
Proof.
  intros Hc Hm Hu Hch Hf. cbn zeta. rewrite (send_joined w c message u ch f) by done.
  cbn [fst snd]. eexists. split; [reflexivity|]. split; [reflexivity|].
  split; [cbn; by rewrite lookup_snoc|].
  split; intros; rewrite complete_await by done; cbn [resume post_resume];
    world_of w; prims; by rewrite ?lookup_snoc.
Qed.

Lemma send_outcome_witness :
  let w := alice_in_general in
  let c := "general" in
  let message := "hello" in
  let u := {| name := VStr "alice"; location := "Earth"; image := VNull |} in
  let i := length (requests w) in
  let p := (send c message w).1 in
  let w1 := (send c message w).2 in
  ∃ data,
    requests w1 = requests w ++ [(feed_add general_feed data, Some (post_k p))]
    ∧ meta data = {[ "from" := profile_value u; "type" := VStr "text";
                     "ts" := VNum (clock w) ]}
    ∧ promises w1 !! p = Some Pending
    ∧ (∀ a, promises (complete i (Success a) w1) !! p = Some (Fulfilled a))
    ∧ (∀ e, promises (complete i (Failure e) w1) !! p = Some (Rejected e)).
Proof.
  apply (send_outcome alice_in_general "general" "hello"
           {| name := VStr "alice"; location := "Earth"; image := VNull |}
           general general_feed);
    [discriminate | discriminate | reflexivity | reflexivity | reflexivity].
Defined.

(** X18: [send] and [addFile] never change the node, emit nothing and
    touch no timer, whether they fail at once or suspend; nor does the rest
    of either method when the request it waits for is answered, with
    whatever answer. *)
Theorem posting_keeps_node w :
  (∀ c message, node (send c message w).2 = node w
                ∧ emitted (send c message w).2 = emitted w
                ∧ intervals (send c message w).2 = intervals w)
  ∧ (∀ c source, node (addFile c source w).2 = node w
                 ∧ emitted (addFile c source w).2 = emitted w
                 ∧ intervals (addFile c source w).2 = intervals w)
  ∧ (∀ i rq k r, requests w !! i = Some (rq, Some k) → posting k = true →
       node (complete i r w) = node w
       ∧ emitted (complete i r w) = emitted w
       ∧ intervals (complete i r w) = intervals w).
Proof.
  split; [|split].
  - intros c message. world_of w. call. repeat case_match; prims; done.
  - intros c source. world_of w. call. repeat case_match; prims; done.
  - intros i rq k r Hi Hk. unfold complete. rewrite Hi. clear Hi.
    world_of w. destruct k, r as [[]|]; cbn [resume]; try done.
    all: each_resume done.
Qed.

(** ** Adding files *)

(** X19: [addFile] with no source, or with a source that has neither a
    filename nor a directory (a buffer alone is not enough), fails with
    "Filename or directory not specified"; nothing is uploaded, nothing is
    emitted and the node is as it was. *)
Theorem addFile_source_required w c source :
  source = None
  ∨ (∃ s, source = Some s
          ∧ present (filename s) = false ∧ present (directory s) = false) →
  let p := (addFile c source w).1 in
  let w1 := (addFile c source w).2 in
  promises w1 !! p = Some (Rejected (Error "Filename or directory not specified"))
  ∧ node w1 = node w ∧ requests w1 = requests w ∧ emitted w1 = emitted w.
Proof.
  intros H. world_of w. unfold addFile. prims.
  destruct H as [-> |(s & -> & Hf & Hd)]; [|rewrite Hf, Hd]; prims;
    by rewrite ?lookup_snoc.
Qed.

Lemma addFile_source_required_witness :
  let w := alice_in_general in
  let c := "general" in
  let source := Some buffer_only_source in
  let p := (addFile c source w).1 in
  let w1 := (addFile c source w).2 in
  promises w1 !! p = Some (Rejected (Error "Filename or directory not specified"))
  ∧ node w1 = node w ∧ requests w1 = requests w ∧ emitted w1 = emitted w.
Proof.
  apply (addFile_source_required alice_in_general "general" (Some buffer_only_source)).
  right. exists buffer_only_source. repeat split; reflexivity.
Defined.

(** X20: with a usable source, [addFile] uploads before it looks at the
    channel: whatever the channel name, the content is handed to the
    network and the call stays pending.  When the upload fails, the call
    fails with that error and nothing is posted.  With an empty channel
    name the call fails with "Channel not specified" only after the upload
    has succeeded. *)
Theorem addFile_uploads_first w c source :
  present (filename source) || present (directory source) = true →
  let i := length (requests w) in
  let p := (addFile c (Some source) w).1 in
  let w1 := (addFile c (Some source) w).2 in
  ∃ k,
    requests w1 = requests w ++ [(adder_request (bound_adder source), Some k)]
    ∧ promises w1 !! p = Some Pending
    ∧ (∀ e, let w2 := complete i (Failure e) w1 in
         promises w2 !! p = Some (Rejected e) ∧ appended w2 = appended w)
    ∧ (c = "" → ∀ path cid,
         let w2 := complete i (Success (AAdded path cid)) w1 in
         promises w2 !! p = Some (Rejected (Error "Channel not specified"))
         ∧ requests w2 = requests w ++ [(adder_request (bound_adder source), None)]).
Proof.
  intros Hsrc. cbn zeta. rewrite (addFile_call w c source) by done. cbn [fst snd].
  eexists. split; [reflexivity|]. split; [cbn; by rewrite lookup_snoc|]. split.
  - intros e. rewrite complete_await by done. cbn [resume addFile_resume].
    unfold appended. world_of w. prims. rewrite ?lookup_snoc. split; [done|].
    rewrite omap_app. destruct (bound_adder source); cbn; by rewrite app_nil_r.
  - intros -> path cid. rewrite complete_await by done.
    cbn [resume addFile_resume]. unfold return_postMessage, _postMessage, _getChannelFeed.
    cbn [String.eqb]. world_of w. prims. by rewrite ?lookup_snoc.
Qed.

Lemma addFile_uploads_first_witness :
  let w := alice_in_general in
  let c := "" in
  let source := plain_path_source in
  let i := length (requests w) in
  let p := (addFile c (Some source) w).1 in
  let w1 := (addFile c (Some source) w).2 in
  ∃ k,
    requests w1 = requests w ++ [(adder_request (bound_adder source), Some k)]
    ∧ promises w1 !! p = Some Pending
    ∧ (∀ e, let w2 := complete i (Failure e) w1 in
         promises w2 !! p = Some (Rejected e) ∧ appended w2 = appended w)
    ∧ (c = "" → ∀ path cid,
         let w2 := complete i (Success (AAdded path cid)) w1 in
         promises w2 !! p = Some (Rejected (Error "Channel not specified"))
         ∧ requests w2 = requests w ++ [(adder_request (bound_adder source), None)]).
Proof.
  apply (addFile_uploads_first alice_in_general "" plain_path_source). reflexivity.
Defined.

Lemma file_post_given o ts source a name size path cid key v :
  given source key = Some v →
  meta (file_post o ts source a name size path cid) !! key = Some v.
Proof.
  unfold given, file_post; cbn [meta]. intros Hv.
  destruct (source_meta source) as [m|]; [|done]. cbn in Hv.
  by apply lookup_union_Some_l.
Qed.

(** The properties [addFile] computes, before the caller's [meta] is
    merged over them. *)
Lemma computed_meta (size name from type ts : value) :
  let computed : gmap string value :=
    {[ "size" := size; "name" := name ]}
    ∪ {[ "from" := from; "type" := type; "ts" := ts ]} in
  computed !! "size" = Some size ∧ computed !! "name" = Some name
  ∧ computed !! "ts" = Some ts ∧ computed !! "from" = Some from.
Proof. cbn zeta. repeat split; reflexivity. Qed.

Lemma file_post_computed o ts source a name size path cid :
  let post := file_post o ts source a name size path cid in
  meta post !! "size" = Some (default size (given source "size"))
  ∧ meta post !! "name" = Some (default (VStr name) (given source "name"))
  ∧ meta post !! "ts" = Some (default (VNum ts) (given source "ts"))
  ∧ meta post !! "from"
    = Some (default (from_option profile_value VNull (get_userProfile o))
                    (given source "from")).
Proof.
  unfold given, file_post; cbn [meta].
  rewrite !(lookup_union (default ∅ (source_meta source))).
  destruct (computed_meta size (VStr name)
              (from_option profile_value VNull (get_userProfile o))
              (VStr (if isDirectory a path then "directory" else "file"))
              (VNum ts)) as (-> & -> & -> & ->).
  destruct (source_meta source) as [m|]; cbn [default from_option mbind option_bind id].
  - repeat split; by destruct (m !! _).
  - by rewrite !lookup_empty.
Qed.

(** X21: the post [addFile] appends to a live channel has the hash of
    the upload as content.  Every property of the caller's [meta] is in
    the post as given.  Where the caller's [meta] is silent, [size] is 0,
    [name] is the trailing segment of the path, [from] is the profile of
    the node and [ts] is the time at which the upload completed, not the
    time of the call.  So a [size] the caller gave is posted as it is, even
    a null one. *)
Theorem addFile_meta_fields w c source ch f path cid dt :
  c ≠ "" →
  present (filename source) || present (directory source) = true →
  _channels (node w) !! c = Some ch → feed ch = Some f →
  let i := length (requests w) in
  let w2 := run [do_addFile c (Some source); do_advance dt;
                 do_complete i (Success (AAdded path cid))] w in
  ∃ data,
    appended w2 = appended w ++ [data]
    ∧ content data = cid
    ∧ meta data !! "size" = Some (default (VNum 0) (given source "size"))
    ∧ meta data !! "name"
      = Some (default (VStr (expected_name source)) (given source "name"))
    ∧ meta data !! "ts" = Some (default (VNum (clock w + dt)) (given source "ts"))
    ∧ meta data !! "from"
      = Some (default (from_option profile_value VNull (get_userProfile (node w)))
                      (given source "from"))
    ∧ ∀ key v, given source key = Some v → meta data !! key = Some v.
Proof.
  intros Hc Hsrc Hch Hf i w2. subst w2 i. unfold run. cbn [foldl step].
  rewrite (addFile_call w c source) by done. cbn [snd].
  set (k := addFile_k _ _ _ _ _ _).
  assert (advance dt (await (adder_request (bound_adder source)) k
                        (new_promise Pending w).2)
          = await (adder_request (bound_adder source)) k
              (advance dt (new_promise Pending w).2)) as -> by done.
  rewrite complete_await by done. subst k.
  cbn [resume addFile_resume]. unfold return_postMessage, _postMessage.
  rewrite (_getChannelFeed_joined c _ ch f) by done.
  destruct (file_post_computed (node w) (clock w + dt)%Z source (bound_adder source)
              (expected_name source) (source_size source) path cid)
    as (Hsize & Hname & Hts & Hfrom).
  exists (file_post (node w) (clock w + dt)%Z source (bound_adder source)
            (expected_name source) (source_size source) path cid).
  split; [|split; [|split; [|split; [|split; [|split]]]]].
  - unfold appended. cbn [default from_option id await called advance requests].
    rewrite <- app_assoc, omap_app.
    f_equal. destruct (bound_adder source); reflexivity.
  - done.
  - rewrite Hsize. unfold source_size, given.
    destruct (source_meta source ≫= _); done.
  - done.
  - done.
  - done.
  - intros key v. apply file_post_given.
Qed.

Lemma addFile_meta_fields_witness :
  let w := alice_in_general in
  let c := "general" in
  let source := null_size_source in
  let path := "a.txt" in
  let cid := "QmA" in
  let dt := 250%Z in
  let i := length (requests w) in
  let w2 := run [do_addFile c (Some source); do_advance dt;
                 do_complete i (Success (AAdded path cid))] w in
  ∃ data,
    appended w2 = appended w ++ [data]
    ∧ content data = cid
    ∧ meta data !! "size" = Some (default (VNum 0) (given source "size"))
    ∧ meta data !! "name"
      = Some (default (VStr (expected_name source)) (given source "name"))
    ∧ meta data !! "ts" = Some (default (VNum (clock w + dt)) (given source "ts"))
    ∧ meta data !! "from"
      = Some (default (from_option profile_value VNull (get_userProfile (node w)))
                      (given source "from"))
    ∧ ∀ key v, given source key = Some v → meta data !! key = Some v.
Proof.
  apply (addFile_meta_fields alice_in_general "general" null_size_source
           general general_feed "a.txt" "QmA" 250%Z);
    [discriminate | reflexivity | reflexivity | reflexivity].
Defined.

(** The caller gave [size: null]: the post says null, not 0; the time
    is that of the upload's completion. *)
Example null_size_posted :
  let w := run [do_addFile "general" (Some null_size_source); do_advance 250;
                do_complete 2 (Success (AAdded "a.txt" "QmA"))] alice_in_general in
  (λ data, (meta data !! "size", meta data !! "name", meta data !! "ts"))
    <$> appended w
  = [(Some VNull, Some (VStr "a.txt"), Some (VNum 250))].
Proof. vm_compute. done. Qed.

(** ** Path segments *)

Lemma split_snoc sep s :
  ∃ front t pre,
    split sep s = front ++ [t]
    ∧ occurs sep t = false
    ∧ s = pre +:+ t
    ∧ (front = [] → pre = "")
    ∧ (front ≠ [] → ∃ pre', pre = pre' +:+ String sep "").
Proof.
  induction s as [|a s (front & t & pre & Hs & Ht & Hpre & Hnil & Hcons)].
  - exists [], "", "". by repeat split.
  - cbn [split]. destruct (Ascii.eqb_spec a sep) as [->|Hne].
    + exists ("" :: front), t, (String sep pre). rewrite Hs.
      split; [done|]. split; [done|]. split; [by rewrite Hpre|]. split; [done|].
      intros _. destruct front as [|x front].
      * rewrite Hnil by done. by exists "".
      * destruct Hcons as [pre' ->]; [done|]. by exists (String sep pre').
    + rewrite Hs. destruct front as [|x front]; cbn [app].
      * exists [], (String a t), "". rewrite Hnil in Hpre by done.
        split; [done|]. split.
        { cbn. rewrite Ht. by apply Ascii.eqb_neq in Hne as ->. }
        split; [by rewrite Hpre|]. by split.
      * destruct Hcons as [pre' ->]; [done|].
        exists (String a x :: front), t, (String a (pre' +:+ String sep "")).
        split; [done|]. split; [done|]. split; [by rewrite Hpre|]. split; [done|].
        intros _. by exists (String a pre').
Qed.

Lemma trailing_segment s :
  let name := pop (split "/" s) in
  occurs "/" name = false
  ∧ ∃ pre, s = pre +:+ name ∧ (pre = "" ∨ ∃ pre', pre = pre' +:+ "/").
Proof.
  destruct (split_snoc "/" s) as (front & t & pre & Hs & Ht & Hpre & Hnil & Hcons).
  cbn zeta. unfold pop. rewrite Hs, List.last_last.
  split; [done|]. exists pre. split; [done|].
  destruct front; [left; by apply Hnil | right; by apply Hcons].
Qed.

(** X22: the name [addFile] records for a source is the part of its
    path (the directory when there is one, otherwise the filename) that
    follows the last "/": it contains no "/", the path ends with it, and
    what precedes it is empty or ends with "/".  The same holds of the
    segment of the uploaded entry's path that [_addToIpfsGo] compares the
    name with. *)
Theorem name_is_trailing_segment source result_path :
  let path := default "" (if present (directory source)
                          then directory source else filename source) in
  (occurs "/" (expected_name source) = false
   ∧ ∃ pre, path = pre +:+ expected_name source
            ∧ (pre = "" ∨ ∃ pre', pre = pre' +:+ "/"))
  ∧ (occurs "/" (pop (split "/" result_path)) = false
     ∧ ∃ pre, result_path = pre +:+ pop (split "/" result_path)
              ∧ (pre = "" ∨ ∃ pre', pre = pre' +:+ "/")).
Proof.
  cbn zeta. split; [|apply trailing_segment]. unfold expected_name.
  destruct (present (directory source)); apply trailing_segment.
Qed.

(** ** Failures of the collaborators *)

Lemma omap_answered {A} (g : cont → option A) i rq k
    (rqs : list (request * option cont)) :
  rqs !! i = Some (rq, Some k) →
  ∃ before after,
    omap g (omap snd rqs) = before ++ option_list (g k) ++ after
    ∧ omap g (omap snd (alter (λ e, (e.1, None)) i rqs)) = before ++ after.
Proof.
  revert i; induction rqs as [|[rq' k'] rqs IH]; intros [|i] Hi; try done.
  - injection Hi as -> ->. exists [], (omap g (omap snd rqs)).
    split; [|done]. cbn. by destruct (g k).
  - destruct (IH i Hi) as (before & after & Hb & Ha).
    destruct k' as [k'|]; cbn.
    + destruct (g k') as [c'|] eqn:Hc'.
      * exists (c' :: before), after. cbn. by rewrite Hb, Ha.
      * exists before, after. by rewrite Hb, Ha.
    + exists before, after. by rewrite Hb, Ha.
Qed.

(** What resuming a method does to the promises and to the requests: it
    settles no promise but its own, and makes no request, or makes the
    [feed.add] that goes on holding its promise. *)
Lemma resume_effect k r w w' :
  resume k r w = Some w' →
  length (promises w') = length (promises w)
  ∧ (∀ q, cont_promise k ≠ Some q → promises w' !! q = promises w !! q)
  ∧ (requests w' = requests w
     ∨ ∃ f data p, cont_promise k = Some p ∧ promises w' = promises w
                   ∧ requests w' = requests w ++ [(feed_add f data, Some (post_k p))]).
Proof.
  intros Hr. world w.
  destruct k, r as [[]|]; cbn [resume cont_promise] in *; try done.
  all: revert Hr.
  all: each_resume idtac.
  all: intros; simplify_eq; prims.
  all: repeat case_match; rewrite ?length_insert.
  all: repeat split; try done.
  all: try (by left).
  all: try (right; by eauto 10).
  all: try (intros q Hq; rewrite list_lookup_insert_ne by congruence; done).
Qed.

(** Closes goals on what a call adds to the requests in flight. *)
Ltac added :=
  simplify_eq; prims; rewrite ?pending_snoc;
  first
    [ by left
    | right; eexists; split; [reflexivity|];
      cbn [cont_promise]; intros ? ?; simplify_eq;
      try (split; [done|]; by rewrite ?lookup_snoc) ].

(** What a call does to the requests in flight: nothing, or one more
    suspended method, holding a promise just made, if any. *)
Lemma call_effect w a :
  (∀ i r, a ≠ do_complete i r) →
  pending (step w a) = pending w
  ∨ ∃ k, pending (step w a) = pending w ++ [k]
         ∧ ∀ p, cont_promise k = Some p →
                p = length (promises w) ∧ promises (step w a) !! p = Some Pending.
Proof.
  intros Ha. unfold pending.
  destruct a; cbn [step]; try (by destruct (Ha i r)); clear Ha; world w.
  all: each_call added.
Qed.

Lemma promises_pending_call w a :
  (∀ i r, a ≠ do_complete i r) →
  promises_known w → promises_pending w → promises_pending (step w a).
Proof.
  intros Ha Hknown [Hnd Hp]. unfold promises_pending, suspended in *.
  assert (Forall (λ q, promises (step w a) !! q = Some Pending)
            (omap cont_promise (pending w))) as Hp'.
  { rewrite Forall_forall in Hp |- *. intros q Hq.
    rewrite promises_call; [by apply Hp | done | by eapply lookup_lt_Some, Hp]. }
  destruct (call_effect w a Ha) as [-> | (k & -> & Hk)]; [done|].
  rewrite omap_app. cbn [omap list_omap].
  destruct (cont_promise k) as [p|] eqn:Hkp; [|by rewrite app_nil_r].
  destruct (Hk p eq_refl) as [-> Hnew]. split.
  - apply NoDup_app. split; [done|]. split; [|apply NoDup_singleton].
    intros q Hq ->%list_elem_of_singleton.
    rewrite Forall_forall in Hp. apply Hp, lookup_lt_Some in Hq. lia.
  - apply Forall_app. split; [done|]. by constructor.
Qed.

Lemma promises_pending_complete w i r :
  promises_pending w → promises_pending (complete i r w).
Proof.
  intros [Hnd Hp]. unfold complete.
  destruct (requests w !! i) as [[rq [k|]]|] eqn:Hi; try done.
  destruct (resume k r (answered i w)) as [w'|] eqn:Hr; [|done].
  cbn [default from_option id].
  destruct (resume_effect _ _ _ _ Hr) as (_ & Hkeep & Hreq).
  destruct (omap_answered cont_promise i rq k (requests w) Hi)
    as (before & after & Hb & Ha).
  unfold promises_pending, suspended, pending in *.
  cbn [answered promises requests] in Hkeep, Hreq.
  rewrite Hb in Hnd, Hp.
  assert (NoDup (before ++ after)) as Hnd'.
  { apply NoDup_app in Hnd as (Hndb & Hsep & Hnda). apply NoDup_app in Hnda as (_ & _ & Hnda).
    apply NoDup_app. split; [done|]. split; [|done].
    intros q Hq Hq'. apply (Hsep q Hq). apply elem_of_app. by right. }
  assert (Forall (λ q, promises w !! q = Some Pending) (before ++ after)) as Hp'.
  { apply Forall_app in Hp as [Hpb Hpa]. apply Forall_app in Hpa as [_ Hpa].
    by apply Forall_app. }
  assert (∀ p, cont_promise k = Some p → p ∉ before ++ after) as Hfresh.
  { intros p Hkp Hin. rewrite Hkp in Hnd. cbn in Hnd.
    apply NoDup_app in Hnd as (_ & Hsep & Hnda). apply NoDup_cons in Hnda as [Hpa _].
    apply elem_of_app in Hin as [Hin|Hin]; [|done].
    apply (Hsep p Hin). by left. }
  assert (Forall (λ q, promises w' !! q = Some Pending) (before ++ after)) as Hp''.
  { rewrite Forall_forall in Hp' |- *. intros q Hq. rewrite Hkeep; [by apply Hp'|].
    intros Hkq. by apply (Hfresh q). }
  destruct Hreq as [-> | (f & data & p & Hkp & Hsame & ->)].
  - by rewrite Ha.
  - rewrite pending_snoc, omap_app, Ha. cbn [omap list_omap cont_promise].
    split.
    + apply NoDup_app. split; [done|]. split; [|apply NoDup_singleton].
      intros q Hq ->%list_elem_of_singleton. by apply (Hfresh p).
    + apply Forall_app. split; [done|]. constructor; [|done].
      rewrite Hsame. rewrite Hkp in Hp. cbn in Hp.
      apply Forall_app in Hp as [_ Hp]. by inversion Hp.
Qed.

Lemma reachable_promises_pending w : reachable w → promises_pending w.
Proof.
  intros Hw. assert (promises_known w ∧ promises_pending w) as [_ H]; [|done].
  revert w Hw. apply (reachable_ind_step (λ w, promises_known w ∧ promises_pending w)).
  - intros options. split; [constructor|]. split; constructor.
  - intros w a [Hk Hp]. split; [by apply promises_known_step|].
    destruct a as [| | | | | |i r| |];
      try (apply promises_pending_call; [discriminate | done | done]).
    by apply promises_pending_complete.
Qed.

(** X23: in every reachable world, a request in flight made by
    [connect], [disconnect], [leave], [send] or [addFile] belongs to a call
    whose promise is still pending; and when the collaborator fails the
    request, that call fails with the collaborator's error. *)
Theorem failure_surfaces w i rq k p e :
  reachable w →
  requests w !! i = Some (rq, Some k) →
  cont_promise k = Some p → join_slot k = None →
  promises w !! p = Some Pending
  ∧ promises (complete i (Failure e) w) !! p = Some (Rejected e).
Proof.
  intros [_ Hp]%reachable_promises_pending Hi Hkp Hj.
  assert (promises w !! p = Some Pending) as Hpending.
  { rewrite Forall_forall in Hp. apply Hp. unfold suspended, pending.
    apply list_elem_of_omap. exists k. split; [|done].
    apply list_elem_of_omap. exists (rq, Some k). split; [|done].
    by eapply list_elem_of_lookup_2. }
  split; [done|]. unfold complete. rewrite Hi. clear Hi Hp.
  world w. destruct k; cbn [resume cont_promise join_slot] in *; simplify_eq.
  all: unfold connect_resume, disconnect_resume, leave_resume, post_resume,
         addFile_resume; prims; rewrite Hpending.
  all: apply list_lookup_insert_eq; by eapply lookup_lt_Some.
Qed.

Lemma failure_surfaces_witness :
  let w := run [do_leave "general"] alice_in_general in
  let e := ProviderFailure "close failed" in
  promises w !! 2 = Some Pending
  ∧ promises (complete 2 (Failure e) w) !! 2 = Some (Rejected e).
Proof.
  apply (failure_surfaces (run [do_leave "general"] alice_in_general) 2
           (feed_close general_feed) (leave_k "general" 2) 2
           (ProviderFailure "close failed"));
    [apply reachable_step, alice_in_general_reachable
    | reflexivity | reflexivity | reflexivity].
Defined.
